(** * error_docs.py: regenerating the error listing of [src/errors.rs]

    The script reads [./src/errors.rs], collects every string literal of the
    shape ["E####: message"] with [re.findall], and rewrites the documentation
    block that sits between the comment [/// Macro to produce nice errors] and
    the attribute [#[macro_export]] with [re.sub]; the new text is printed and
    written back to the file.

    The development below embeds the script: the two regular expressions as
    the backtracking matchers [re] runs for them, the replacement template as
    [re] compiles and expands it, and the file and standard output as an
    explicit world threaded through the statements of the script. *)

From Equations.Prop Require Import Equations Logic.
From Stdlib Require Import Ascii String List NArith Bool Arith Lia.
Import ListNotations.

Set Implicit Arguments.

(** ** Text *)

(** A Python [str] is a sequence of Unicode code points.  The world holds the
    text of a file as [read()] returns it and as [write()] receives it. *)
Definition char := N.
Definition text := list char.

Definition ch (a : ascii) : char := N_of_ascii a.
Definition str (s : string) : text := map ch (list_ascii_of_string s).

Definition nl : char := 10%N.       (* line feed *)
Definition dq : char := 34%N.       (* the double quote *)
Definition bslash : char := 92%N.   (* the backslash *)

Definition eqc (a b : char) : bool := N.eqb a b.

Arguments eqc : simpl never.
Arguments ch : simpl never.
Arguments str : simpl never.

Lemma eqc_spec a b : reflect (a = b) (eqc a b).
Proof. apply N.eqb_spec. Qed.

Lemma eqc_refl a : eqc a a = true.
Proof. apply N.eqb_refl. Qed.

(** [sep.join(xs)] *)
Fixpoint join (sep : text) (xs : list text) : text :=
  match xs with
  | [] => []
  | [x] => x
  | x :: rest => x ++ sep ++ join sep rest
  end.

(** ** The constants of the script *)

Definition ERROR_INITIAL_DOC : text := str "/// Macro to produce nice errors".
Definition ERRORS_PATH : string := "./src/errors.rs".
(** The literal that [#\[macro_export\]] matches. *)
Definition MACRO_EXPORT : text := str "#[macro_export]".

Arguments ERROR_INITIAL_DOC : simpl never.
Arguments MACRO_EXPORT : simpl never.

(** ** [\d] on [str] patterns

    [\d] matches the code points for which [str.isdecimal] holds (general
    category Nd).  The table is the one of Unicode 14.0, which CPython 3.11
    ships, as inclusive ranges of code points; later versions of Unicode add
    ranges and remove none. *)
Definition decimal_ranges : list (N * N) :=
  [ (48, 57); (1632, 1641); (1776, 1785); (1984, 1993); (2406, 2415);
    (2534, 2543); (2662, 2671); (2790, 2799); (2918, 2927); (3046, 3055);
    (3174, 3183); (3302, 3311); (3430, 3439); (3558, 3567); (3664, 3673);
    (3792, 3801); (3872, 3881); (4160, 4169); (4240, 4249); (6112, 6121);
    (6160, 6169); (6470, 6479); (6608, 6617); (6784, 6793); (6800, 6809);
    (6992, 7001); (7088, 7097); (7232, 7241); (7248, 7257); (42528, 42537);
    (43216, 43225); (43264, 43273); (43472, 43481); (43504, 43513);
    (43600, 43609); (44016, 44025); (65296, 65305); (66720, 66729);
    (68912, 68921); (69734, 69743); (69872, 69881); (69942, 69951);
    (70096, 70105); (70384, 70393); (70736, 70745); (70864, 70873);
    (71248, 71257); (71360, 71369); (71472, 71481); (71904, 71913);
    (72016, 72025); (72784, 72793); (73040, 73049); (73120, 73129);
    (92768, 92777); (92864, 92873); (93008, 93017); (120782, 120831);
    (123200, 123209); (123632, 123641); (125264, 125273);
    (130032, 130041) ]%N.

Definition is_decimal (c : char) : bool :=
  existsb (fun r => N.leb (fst r) c && N.leb c (snd r)) decimal_ranges.
Arguments is_decimal : simpl never.

(** ** [ERROR_PATTERN = r'"(E\d\d\d\d:.+?)"'] *)

(** The lazy tail of the pattern once [.+?] holds its first character: [.]
    takes one more character at a time, never a line feed, and the closing
    double quote ends the match at its first occurrence.  Returns the
    characters taken and the text after the quote. *)
Fixpoint lazy_dot_quote (s : text) : option (text * text) :=
  match s with
  | [] => None
  | c :: r =>
      if eqc c dq then Some ([], r)
      else if eqc c nl then None
      else match lazy_dot_quote r with
           | Some (body, rest) => Some (c :: body, rest)
           | None => None
           end
  end.

(** A match of [ERROR_PATTERN] that starts at the head of [s]: group 1 and
    the text after the closing quote. *)
Definition match_ERROR_PATTERN (s : text) : option (text * text) :=
  match s with
  | q :: e :: d1 :: d2 :: d3 :: d4 :: c :: x :: r =>
      if eqc q dq && eqc e (ch "E")
         && is_decimal d1 && is_decimal d2 && is_decimal d3 && is_decimal d4
         && eqc c (ch ":") && negb (eqc x nl)
      then match lazy_dot_quote r with
           | Some (body, rest) =>
               Some (e :: d1 :: d2 :: d3 :: d4 :: c :: x :: body, rest)
           | None => None
           end
      else None
  | _ => None
  end.

Lemma lazy_dot_quote_length s body rest :
  lazy_dot_quote s = Some (body, rest) -> length rest < length s.
Proof.
  revert body rest; induction s as [|c r IH]; intros body rest; simpl.
  - discriminate.
  - destruct (eqc c dq).
    + intros [= <- <-]. lia.
    + destruct (eqc c nl); [discriminate|].
      destruct (lazy_dot_quote r) as [[b t]|] eqn:E; [|discriminate].
      intros [= <- <-]. specialize (IH _ _ eq_refl). lia.
Qed.

Lemma match_ERROR_PATTERN_length s m rest :
  match_ERROR_PATTERN s = Some (m, rest) -> length rest < length s.
Proof.
  unfold match_ERROR_PATTERN.
  destruct s as [|q [|e [|d1 [|d2 [|d3 [|d4 [|c [|x r]]]]]]]]; try discriminate.
  destruct (_ && _); [|discriminate].
  destruct (lazy_dot_quote r) as [[b t]|] eqn:E; [|discriminate].
  intros [= <- <-]. apply lazy_dot_quote_length in E. simpl. lia.
Qed.

(** [re.findall(ERROR_PATTERN, s)]: the scan tries every position from left
    to right; after a match it resumes behind the closing quote, otherwise
    one character further.  With one group in the pattern the result lists
    the texts of group 1. *)
Equations? findall (s : text) : list text by wf (length s) lt :=
  findall [] := [];
  findall (c :: r) with inspect (match_ERROR_PATTERN (c :: r)) := {
    | exist _ (Some (m, rest)) H => m :: findall rest;
    | exist _ None _ => findall r }.
Proof.
  exact (match_ERROR_PATTERN_length (c :: r) H).
Qed.

(** ** [ERROR_DOC_LISTING_PATTERN], compiled with [re.DOTALL]

    [rf"({ERROR_INITIAL_DOC}).*?(#\[macro_export\])"]: the header holds no
    character that is special in a pattern, so group 1 is the literal header,
    group 2 the literal attribute, and between them [.*?] takes as few
    characters as possible, line feeds included. *)

(** The literal [pat] at the head of [s]: the text behind it. *)
Fixpoint literal (pat s : text) : option text :=
  match pat, s with
  | [], _ => Some s
  | p :: pat', c :: s' => if eqc p c then literal pat' s' else None
  | _ :: _, [] => None
  end.

(** [.*?] followed by the literal [pat]: the literal is tried first, and only
    when it fails does [.] take one more character.  Returns what [.*?] took
    and the text behind the literal. *)
Fixpoint lazy_dotall (pat s : text) : option (text * text) :=
  match literal pat s with
  | Some post => Some ([], post)
  | None =>
      match s with
      | [] => None
      | c :: s' =>
          match lazy_dotall pat s' with
          | Some (mid, post) => Some (c :: mid, post)
          | None => None
          end
      end
  end.

(** A match of the listing pattern that starts at the head of [s]: what
    [.*?] took and the text behind the match. *)
Definition match_LISTING (s : text) : option (text * text) :=
  match literal ERROR_INITIAL_DOC s with
  | Some r => lazy_dotall MACRO_EXPORT r
  | None => None
  end.

(** The leftmost match at or behind the head of [s]: the text before the
    match, what [.*?] took, and the text behind the match. *)
Fixpoint search_LISTING (s : text) : option (text * text * text) :=
  match match_LISTING s with
  | Some (mid, post) => Some ([], mid, post)
  | None =>
      match s with
      | [] => None
      | c :: s' =>
          match search_LISTING s' with
          | Some (pre, mid, post) => Some (c :: pre, mid, post)
          | None => None
          end
      end
  end.

(** ** Exceptions *)

Inductive exn : Type :=
| FileNotFoundError   (* [open(ERRORS_PATH, "r")] on a missing file *)
| OSError             (* any other error of the operating system on the
                         file or on standard output *)
| UnicodeDecodeError  (* [fr.read()] on bytes that are no text *)
| UnicodeEncodeError  (* [print] or [fw.write] on a text that the stream
                         cannot encode *)
| TemplateError.      (* [re.error], or [IndexError] for a named group, raised
                         while [re.sub] compiles the replacement template *)

Inductive result (A : Type) : Type :=
| Ok (a : A)
| Raise (e : exn).
Arguments Ok {A} a.
Arguments Raise {A} e.

Definition bind {A B} (r : result A) (k : A -> result B) : result B :=
  match r with
  | Ok a => k a
  | Raise e => Raise e
  end.

Declare Scope result_scope.
Delimit Scope result_scope with result.
Notation "x <- r ;; k" := (bind r (fun x => k))
  (at level 61, r at next level, right associativity) : result_scope.
Open Scope result_scope.

(** ** The replacement template

    [re.sub] compiles a replacement that holds a backslash before it looks
    for any match ([re._parser.parse_template]).  The replacement is cut into
    tokens, a character or a backslash with the character behind it, and
    each token becomes literal text or a reference to a group of the match.
    Group names follow CPython 3.12 and later, where the name in [\g<name>]
    is a group number only if all its characters are ASCII digits; earlier
    versions take some further spellings of a number, with a warning. *)

Inductive token : Type :=
| Chr (c : char)      (* one character *)
| Esc (c : char).     (* a backslash and the character behind it *)

(** The tokenizer raises on a backslash that ends the replacement. *)
Fixpoint tokenize (s : text) : result (list token) :=
  match s with
  | [] => Ok []
  | c :: r =>
      if eqc c bslash then
        match r with
        | [] => Raise TemplateError
        | d :: r' => ts <- tokenize r' ;; Ok (Esc d :: ts)
        end
      else ts <- tokenize r ;; Ok (Chr c :: ts)
  end.

Inductive piece : Type :=
| Chars (t : text)    (* literal text *)
| Group (n : N).      (* the text of group [n] of the match *)

Definition template := list piece.

Definition in_range (lo hi : ascii) (c : char) : bool :=
  N.leb (ch lo) c && N.leb c (ch hi).

Definition DIGITS (c : char) : bool := in_range "0" "9" c.
Definition OCTDIGITS (c : char) : bool := in_range "0" "7" c.
Definition ASCIILETTERS (c : char) : bool := in_range "a" "z" c || in_range "A" "Z" c.

(** The value of an ASCII digit, and [int(digits, base)]. *)
Definition digit_value (c : char) : N := (c - ch "0")%N.
Definition int_of (base : N) (digits : text) : N :=
  fold_left (fun acc c => (acc * base + digit_value c)%N) digits 0%N.

(** [ESCAPES]: the escapes that stand for one character. *)
Definition ESCAPES (c : char) : option char :=
  if eqc c (ch "a") then Some 7%N
  else if eqc c (ch "b") then Some 8%N
  else if eqc c (ch "f") then Some 12%N
  else if eqc c (ch "n") then Some 10%N
  else if eqc c (ch "r") then Some 13%N
  else if eqc c (ch "t") then Some 9%N
  else if eqc c (ch "v") then Some 11%N
  else if eqc c bslash then Some bslash
  else None.

(** [s.getuntil(">", "group name")]: the tokens up to the next [>] as text,
    and the tokens behind it; [None] when no [>] follows. *)
Fixpoint getuntil (ts : list token) : option (text * list token) :=
  match ts with
  | [] => None
  | Chr c :: r =>
      if eqc c (ch ">") then Some ([], r)
      else match getuntil r with
           | Some (name, rest) => Some (c :: name, rest)
           | None => None
           end
  | Esc c :: r =>
      match getuntil r with
      | Some (name, rest) => Some (bslash :: c :: name, rest)
      | None => None
      end
  end.

Lemma getuntil_length ts name rest :
  getuntil ts = Some (name, rest) -> length rest < length ts.
Proof.
  revert name rest; induction ts as [|t r IH]; intros name rest; simpl.
  - discriminate.
  - destruct t as [c|c].
    + destruct (eqc c _).
      * intros [= <- <-]. lia.
      * destruct (getuntil r) as [[n t]|]; [|discriminate].
        intros [= <- <-]. specialize (IH _ _ eq_refl). lia.
    + destruct (getuntil r) as [[n t]|]; [|discriminate].
      intros [= <- <-]. specialize (IH _ _ eq_refl). lia.
Qed.

(** The pattern has two groups and no named group. *)
Definition pattern_groups : N := 2%N.

(** [int(name)] reads at most 4300 digits ([sys.int_max_str_digits]). *)
Definition int_max_str_digits : nat := 4300.

(** [addgroup(index)]: a reference beyond the groups of the pattern raises. *)
Definition addgroup (index : N) (k : result template) : result template :=
  if N.leb index pattern_groups then ps <- k ;; Ok (Group index :: ps)
  else Raise TemplateError.

Definition lappend (t : text) (k : result template) : result template :=
  ps <- k ;; Ok (Chars t :: ps).

(** The group of [\g<name>]: a name of ASCII digits is the number of the
    group; any other name raises, as the pattern names no group. *)
Definition group_of_name (name : text) : result N :=
  match name with
  | [] => Raise TemplateError
  | _ :: _ =>
      if forallb DIGITS name && Nat.leb (length name) int_max_str_digits
      then Ok (int_of 10 name)
      else Raise TemplateError
  end.

(** The loop of [parse_template] over the tokens. *)
Equations? parse_tokens (ts : list token) : result template
  by wf (length ts) lt :=
  parse_tokens [] := Ok [];
  parse_tokens (Chr c :: r) := lappend [c] (parse_tokens r);
  parse_tokens (Esc c :: r) with eqc c (ch "g") := {
    | true with r := {
        | Chr o :: r1 with eqc o (ch "<") := {
            | true with inspect (getuntil r1) := {
                | exist _ (Some (name, r2)) H =>
                    index <- group_of_name name ;;
                    addgroup index (parse_tokens r2);
                | exist _ None _ => Raise TemplateError };
            | false => Raise TemplateError };
        | _ => Raise TemplateError };
    | false with eqc c (ch "0") := {
        | true with r := {
            | Chr o1 :: Chr o2 :: r2 =>
                if OCTDIGITS o1 && OCTDIGITS o2
                then lappend [N.land (int_of 8 [o1; o2]) 255] (parse_tokens r2)
                else if OCTDIGITS o1
                then lappend [N.land (int_of 8 [o1]) 255] (parse_tokens (Chr o2 :: r2))
                else lappend [0%N] (parse_tokens (Chr o1 :: Chr o2 :: r2));
            | Chr o1 :: r1 =>
                if OCTDIGITS o1
                then lappend [N.land (int_of 8 [o1]) 255] (parse_tokens r1)
                else lappend [0%N] (parse_tokens (Chr o1 :: r1));
            | r0 => lappend [0%N] (parse_tokens r0) };
        | false with DIGITS c := {
            | true with r := {
                | Chr d2 :: Chr d3 :: r3 =>
                    if DIGITS d2 then
                      if OCTDIGITS c && OCTDIGITS d2 && OCTDIGITS d3 then
                        if N.leb (int_of 8 [c; d2; d3]) 255
                        then lappend [int_of 8 [c; d2; d3]] (parse_tokens r3)
                        else Raise TemplateError
                      else addgroup (int_of 10 [c; d2]) (parse_tokens (Chr d3 :: r3))
                    else addgroup (int_of 10 [c]) (parse_tokens (Chr d2 :: Chr d3 :: r3));
                | Chr d2 :: r2 =>
                    if DIGITS d2
                    then addgroup (int_of 10 [c; d2]) (parse_tokens r2)
                    else addgroup (int_of 10 [c]) (parse_tokens (Chr d2 :: r2));
                | r0 => addgroup (int_of 10 [c]) (parse_tokens r0) };
            | false with ESCAPES c := {
                | Some x => lappend [x] (parse_tokens r);
                | None =>
                    if ASCIILETTERS c then Raise TemplateError
                    else lappend [bslash; c] (parse_tokens r) } } } }.
Proof.
  all: simpl; try lia.
  apply getuntil_length in H. simpl in *. lia.
Qed.

Definition parse_template (source : text) : result template :=
  ts <- tokenize source ;; parse_tokens ts.

(** The text of a group in a match of the listing pattern: group 0 is the
    whole match, group 1 the header, group 2 the attribute. *)
Definition group_text (whole : text) (n : N) : text :=
  match n with
  | 0%N => whole
  | 1%N => ERROR_INITIAL_DOC
  | _ => MACRO_EXPORT
  end.

Definition expand_piece (whole : text) (p : piece) : text :=
  match p with
  | Chars t => t
  | Group n => group_text whole n
  end.

(** [expand_template]: the replacement text for one match. *)
Definition expand (t : template) (whole : text) : text :=
  flat_map (expand_piece whole) t.

(** ** [re.sub] with [count = 0] *)

Lemma literal_length pat s r : literal pat s = Some r -> length r <= length s.
Proof.
  revert s; induction pat as [|p pat IH]; intros [|c s]; simpl;
    try discriminate; try (intros [= <-]; simpl; lia).
  destruct (eqc p c); [|discriminate]. intros H. apply IH in H. lia.
Qed.

Lemma literal_length_cons p pat s r :
  literal (p :: pat) s = Some r -> length r < length s.
Proof.
  destruct s as [|c s]; simpl; [discriminate|].
  destruct (eqc p c); [|discriminate]. intros H.
  apply literal_length in H. lia.
Qed.

Lemma lazy_dotall_length pat s mid post :
  lazy_dotall pat s = Some (mid, post) -> length post <= length s.
Proof.
  revert mid post; induction s as [|c s IH]; intros mid post; simpl.
  - destruct (literal pat []) eqn:E; [|discriminate].
    intros [= <- <-]. apply literal_length in E. exact E.
  - destruct (literal pat (c :: s)) eqn:E.
    + intros [= <- <-]. apply literal_length in E. exact E.
    + destruct (lazy_dotall pat s) as [[m p]|]; [|discriminate].
      intros [= <- <-]. specialize (IH _ _ eq_refl). simpl. lia.
Qed.

Lemma match_LISTING_length s mid post :
  match_LISTING s = Some (mid, post) -> length post < length s.
Proof.
  unfold match_LISTING.
  destruct (literal ERROR_INITIAL_DOC s) as [r|] eqn:E; [|discriminate].
  intros H. apply lazy_dotall_length in H.
  apply literal_length_cons in E. lia.
Qed.

Lemma search_LISTING_length s pre mid post :
  search_LISTING s = Some (pre, mid, post) -> length post < length s.
Proof.
  revert pre mid post; induction s as [|c s IH]; intros pre mid post.
  - cbn [search_LISTING].
    destruct (match_LISTING []) as [[m p]|] eqn:E; [|discriminate].
    intros [= <- <- <-]. exact (match_LISTING_length _ E).
  - cbn [search_LISTING].
    destruct (match_LISTING (c :: s)) as [[m p]|] eqn:E.
    + intros [= <- <- <-]. exact (match_LISTING_length _ E).
    + destruct (search_LISTING s) as [[[a b] d]|]; [|discriminate].
      intros [= <- <- <-]. specialize (IH _ _ _ eq_refl). simpl. lia.
Qed.

(** Every match is replaced by the expansion of the template; the scan
    resumes behind the match, in the text as it was read. *)
Equations? sub_LISTING (t : template) (s : text) : text
  by wf (length s) lt :=
  sub_LISTING t s with inspect (search_LISTING s) := {
    | exist _ (Some (pre, mid, post)) H =>
        pre ++ expand t (ERROR_INITIAL_DOC ++ mid ++ MACRO_EXPORT)
            ++ sub_LISTING t post;
    | exist _ None _ => s }.
Proof.
  exact (search_LISTING_length _ H).
Qed.

(** [re.sub(ERROR_DOC_LISTING_PATTERN, repl, s, 0, re.DOTALL)] *)
Definition sub (repl s : text) : result text :=
  t <- parse_template repl ;; Ok (sub_LISTING t s).

(** ** The script *)

(** [r"\g<1>\n/// " + "\n/// ".join(errors) + r"\n\g<2>"]: the first and
    the last part are raw strings, the separator of [join] begins with a line
    feed. *)
Definition replacement (errors : list text) : text :=
  str "\g<1>\n/// " ++ join (nl :: str "/// ") errors ++ str "\n\g<2>".

(** The text the script computes from the text it read. *)
Definition new_content (content : text) : result text :=
  sub (replacement (findall content)) content.

(** What stands at [ERRORS_PATH]. *)
Inductive file : Type :=
| Missing                 (* no such file *)
| Unreadable              (* a file that cannot be opened or read *)
| Undecodable             (* bytes that are no text in the encoding *)
| Holds (content : text). (* the text of the file *)

(** The world of the script: the file at [ERRORS_PATH] and what was written
    to standard output. *)
Record world : Type := World { errors_rs : file; stdout : text }.

(** How writing a text to a stream fails: the text cannot be encoded, and
    nothing goes out, or the device fails after some text went out. *)
Inductive failure : Type :=
| Unencodable
| Broken (sent : text).

Definition raised (f : failure) : exn :=
  match f with
  | Unencodable => UnicodeEncodeError
  | Broken _ => OSError
  end.

Definition written (f : failure) : text :=
  match f with
  | Unencodable => []
  | Broken sent => sent
  end.

(** What the script does not decide: whether the file can be opened for
    writing, and for which texts [print] and [fw.write] fail, and how. *)
Record env : Type := Env {
  writable : bool;
  print_failure : text -> option failure;
  write_failure : text -> option failure }.

Definition io (A : Type) : Type := world -> result A * world.

Definition io_ret {A} (a : A) : io A := fun w => (Ok a, w).

Definition io_bind {A B} (m : io A) (k : A -> io B) : io B :=
  fun w =>
    match m w with
    | (Ok a, w') => k a w'
    | (Raise e, w') => (Raise e, w')
    end.

Declare Scope io_scope.
Delimit Scope io_scope with io.
Notation "x <- m ;; k" := (io_bind m (fun x => k))
  (at level 61, m at next level, right associativity) : io_scope.
Notation "m ;; k" := (io_bind m (fun _ => k))
  (at level 61, right associativity) : io_scope.

(** [open(ERRORS_PATH, "r")] and [fr.read()] *)
Definition read_errors_rs : io text :=
  fun w =>
    match errors_rs w with
    | Holds content => (Ok content, w)
    | Missing => (Raise FileNotFoundError, w)
    | Unreadable => (Raise OSError, w)
    | Undecodable => (Raise UnicodeDecodeError, w)
    end.

(** [open(ERRORS_PATH, "w")]: the file is created or truncated, unless it
    cannot be opened. *)
Definition open_write (e : env) : io unit :=
  fun w =>
    if writable e then (Ok tt, World (Holds []) (stdout w))
    else (Raise OSError, w).

(** [print(s)] writes [s] and a line feed. *)
Definition print (e : env) (s : text) : io unit :=
  fun w =>
    match print_failure e s with
    | None => (Ok tt, World (errors_rs w) (stdout w ++ s ++ [nl]))
    | Some f => (Raise (raised f), World (errors_rs w) (stdout w ++ written f))
    end.

(** The file with [s] written behind what it holds. *)
Definition append_file (f : file) (s : text) : file :=
  match f with
  | Holds c => Holds (c ++ s)
  | other => other
  end.

(** [fw.write(s)], and the end of the [with] block, which flushes. *)
Definition fw_write (e : env) (s : text) : io unit :=
  fun w =>
    match write_failure e s with
    | None => (Ok tt, World (append_file (errors_rs w) s) (stdout w))
    | Some f =>
        (Raise (raised f),
         World (append_file (errors_rs w) (written f)) (stdout w))
    end.

Definition raising {A} (r : result A) : io A := fun w => (r, w).

Definition main (e : env) : io unit :=
  (content <- read_errors_rs ;;
   let errors := findall content in
   new <- raising (sub (replacement errors) content) ;;
   open_write e ;;
   print e new ;;
   fw_write e new)%io.

(** * The vocabulary of the statements *)

(** The shape of group 1 of [ERROR_PATTERN]: [E], four decimal digits, a
    colon, one character that is no line feed, and then neither a double
    quote nor a line feed. *)
Definition error_message (m : text) : Prop :=
  exists d1 d2 d3 d4 x body,
    m = ch "E" :: d1 :: d2 :: d3 :: d4 :: ch ":" :: x :: body /\
    is_decimal d1 = true /\ is_decimal d2 = true /\
    is_decimal d3 = true /\ is_decimal d4 = true /\
    x <> nl /\ ~ In dq body /\ ~ In nl body.

(** [occurs pat s]: the literal [pat] occurs somewhere in [s]. *)
Definition occurs (pat s : text) : Prop := exists a b, s = a ++ pat ++ b.

(** [has_block s]: the header occurs in [s] and the attribute behind it. *)
Definition has_block (s : text) : Prop :=
  exists a b c, s = a ++ ERROR_INITIAL_DOC ++ b ++ MACRO_EXPORT ++ c.

(** The text between the header and the attribute of the new block, when
    no message holds a backslash. *)
Definition listing (errors : list text) : text :=
  nl :: str "/// " ++ join (nl :: str "/// ") errors ++ [nl].

Definition block (errors : list text) : text :=
  ERROR_INITIAL_DOC ++ listing errors ++ MACRO_EXPORT.

(** The comment lines of a listing, one for each message. *)
Definition comment_lines (errors : list text) : text :=
  flat_map (fun m => nl :: str "/// " ++ m) errors.

(** The matches of the listing pattern that [re.sub] visits in [s]: for each
    the text before the header, counted from the end of the match before,
    and the text between header and attribute. *)
Equations? blocks (s : text) : list (text * text) by wf (length s) lt :=
  blocks s with inspect (search_LISTING s) := {
    | exist _ (Some (pre, mid, post)) H => (pre, mid) :: blocks post;
    | exist _ None _ => [] }.
Proof.
  exact (search_LISTING_length _ H).
Qed.

(** The text behind the last match. *)
Equations? remainder (s : text) : text by wf (length s) lt :=
  remainder s with inspect (search_LISTING s) := {
    | exist _ (Some (pre, mid, post)) H => remainder post;
    | exist _ None _ => s }.
Proof.
  exact (search_LISTING_length _ H).
Qed.


Definition rewritten_block (t : template) (b : text * text) : text :=
  fst b ++ expand t (ERROR_INITIAL_DOC ++ snd b ++ MACRO_EXPORT).

(** [dead v]: no match that begins in front of [v] ends in [v]. *)
Definition dead (v : text) : Prop :=
  forall u m rest,
    match_ERROR_PATTERN u = None ->
    match_ERROR_PATTERN (u ++ v) <> Some (m, rest).

(** The tokens of [\g<2>], which end every replacement. *)
Definition closing_group : list token :=
  [Esc (ch "g"); Chr (ch "<"); Chr (ch "2"); Chr (ch ">")].

(** [literal_at s m rest]: [s] begins with a literal of the pattern, with
    the message [m], and [rest] stands behind its closing quote. *)
Definition literal_at (s m rest : text) : Prop :=
  s = dq :: m ++ dq :: rest /\ error_message m.

(** [scan_of s ms]: [ms] are the messages of the leftmost literals of [s]
    that do not overlap, from left to right: where a literal begins its
    message is taken and the reading goes on behind it, elsewhere one
    character is passed over. *)
Inductive scan_of : text -> list text -> Prop :=
| scan_end : scan_of [] []
| scan_literal s m rest ms :
    literal_at s m rest -> scan_of rest ms -> scan_of s (m :: ms)
| scan_char c r ms :
    (forall m rest, ~ literal_at (c :: r) m rest) ->
    scan_of r ms -> scan_of (c :: r) ms.


(** An environment whose standard output encodes nothing but the empty
    text. *)
Definition mute : env :=
  Env true
      (fun s => match s with [] => None | _ :: _ => Some Unencodable end)
      (fun _ => None).

(** ** Texts of the examples *)

Definition example_input : text :=
  dq :: str "E0001: bad input" ++ [dq; nl]
     ++ dq :: str "E0002: missing field" ++ [dq; nl]
     ++ str "/// Macro to produce nice errors" ++ [nl]
     ++ str "#[macro_export]" ++ [nl].

Definition example_output : text :=
  dq :: str "E0001: bad input" ++ [dq; nl]
     ++ dq :: str "E0002: missing field" ++ [dq; nl]
     ++ str "/// Macro to produce nice errors" ++ [nl]
     ++ str "/// E0001: bad input" ++ [nl]
     ++ str "/// E0002: missing field" ++ [nl]
     ++ str "#[macro_export]" ++ [nl].

Definition two_blocks : text :=
  str "a" ++ ERROR_INITIAL_DOC ++ str "old" ++ MACRO_EXPORT
    ++ str "b" ++ ERROR_INITIAL_DOC ++ str "older" ++ MACRO_EXPORT
    ++ str "c".

Definition two_blocks_new : text :=
  str "a" ++ ERROR_INITIAL_DOC ++ [nl] ++ str "/// " ++ [nl] ++ MACRO_EXPORT
    ++ str "b" ++ ERROR_INITIAL_DOC ++ [nl] ++ str "/// " ++ [nl]
    ++ MACRO_EXPORT ++ str "c".

(** * Properties *)

(** ** The scan for error messages *)

Lemma findall_cons c r :
  findall (c :: r) =
  match match_ERROR_PATTERN (c :: r) with
  | Some (m, rest) => m :: findall rest
  | None => findall r
  end.
Proof.
  rewrite findall_equation_2.
  generalize (inspect (match_ERROR_PATTERN (c :: r))).
  intros [[[m rest]|] e].
  - rewrite findall_clause_2_equation_1, e. reflexivity.
  - rewrite findall_clause_2_equation_2, e. reflexivity.
Qed.

Lemma findall_match s m rest :
  match_ERROR_PATTERN s = Some (m, rest) -> findall s = m :: findall rest.
Proof.
  destruct s as [|c r]; [discriminate|].
  intros H. rewrite findall_cons, H. reflexivity.
Qed.

Lemma findall_skip c r :
  match_ERROR_PATTERN (c :: r) = None -> findall (c :: r) = findall r.
Proof. intros H. rewrite findall_cons, H. reflexivity. Qed.

(** Induction on a text along the suffixes a scan resumes at. *)
Lemma text_suffix_ind (P : text -> Prop) :
  (forall s, (forall s', length s' < length s -> P s') -> P s) ->
  forall s, P s.
Proof.
  intros step s. remember (length s) as n eqn:Hn.
  revert s Hn. induction n as [n IH] using lt_wf_ind.
  intros s ->. apply step. intros s' Hlt. exact (IH _ Hlt s' eq_refl).
Qed.

(** Concatenations read from the left. *)
Ltac norm_app :=
  repeat first [rewrite <- app_assoc | rewrite <- app_comm_cons].
Ltac norm_app_in H :=
  repeat first [rewrite <- app_assoc in H | rewrite <- app_comm_cons in H].

Lemma cons_eq (A : Type) (a b : A) (x y : list A) :
  a :: x = b :: y -> a = b /\ x = y.
Proof. intros H. inversion H. auto. Qed.

(** What [.+?] leaves behind the first character: no quote, no line feed. *)
Lemma lazy_dot_quote_sound s body rest :
  lazy_dot_quote s = Some (body, rest) ->
  s = body ++ dq :: rest /\ ~ In dq body /\ ~ In nl body.
Proof.
  revert body rest; induction s as [|c r IH]; intros body rest; simpl.
  - discriminate.
  - destruct (eqc_spec c dq) as [->|Hq].
    + intros [= <- <-]. simpl. auto.
    + destruct (eqc_spec c nl) as [->|Hn]; [discriminate|].
      destruct (lazy_dot_quote r) as [[b t]|] eqn:E; [|discriminate].
      intros [= <- <-]. destruct (IH _ _ eq_refl) as (-> & Hb1 & Hb2).
      simpl. repeat split; try reflexivity.
      * intros [H|H]; [apply Hq; exact H|exact (Hb1 H)].
      * intros [H|H]; [apply Hn; exact H|exact (Hb2 H)].
Qed.

Lemma lazy_dot_quote_complete body rest :
  ~ In dq body -> ~ In nl body ->
  lazy_dot_quote (body ++ dq :: rest) = Some (body, rest).
Proof.
  induction body as [|b body IH]; intros Hq Hn; cbn [app lazy_dot_quote].
  - rewrite eqc_refl. reflexivity.
  - destruct (eqc_spec b dq) as [->|_]; [exfalso; apply Hq; left; reflexivity|].
    destruct (eqc_spec b nl) as [->|_]; [exfalso; apply Hn; left; reflexivity|].
    rewrite IH; [reflexivity| |]; intros H; [apply Hq|apply Hn]; right; exact H.
Qed.

Lemma lazy_dot_quote_spec s body rest :
  lazy_dot_quote s = Some (body, rest) <->
  s = body ++ dq :: rest /\ ~ In dq body /\ ~ In nl body.
Proof.
  split; [apply lazy_dot_quote_sound|].
  intros (-> & Hq & Hn). apply lazy_dot_quote_complete; assumption.
Qed.

Lemma match_ERROR_PATTERN_spec s m rest :
  match_ERROR_PATTERN s = Some (m, rest) <->
  s = dq :: m ++ dq :: rest /\ error_message m.
Proof.
  split.
  - unfold match_ERROR_PATTERN.
    destruct s as [|q [|e [|d1 [|d2 [|d3 [|d4 [|c [|x r]]]]]]]]; try discriminate.
    destruct (eqc_spec q dq) as [->|]; [|discriminate].
    destruct (eqc_spec e (ch "E")) as [->|]; [|discriminate].
    destruct (is_decimal d1) eqn:D1; [|discriminate].
    destruct (is_decimal d2) eqn:D2; [|discriminate].
    destruct (is_decimal d3) eqn:D3; [|discriminate].
    destruct (is_decimal d4) eqn:D4; [|discriminate].
    destruct (eqc_spec c (ch ":")) as [->|]; [|discriminate].
    destruct (eqc_spec x nl) as [|Hx]; [discriminate|].
    cbn [andb negb].
    destruct (lazy_dot_quote r) as [[b t]|] eqn:E; [|discriminate].
    intros [= <- <-]. apply lazy_dot_quote_spec in E.
    destruct E as (-> & Hq & Hn). split; [reflexivity|].
    exists d1, d2, d3, d4, x, b. auto 10.
  - intros (-> & d1 & d2 & d3 & d4 & x & body & -> & D1 & D2 & D3 & D4 & Hx & Hq & Hn).
    cbn [app match_ERROR_PATTERN].
    rewrite !eqc_refl, D1, D2, D3, D4.
    destruct (eqc_spec x nl) as [|_]; [contradiction|]. cbn [andb negb].
    assert (E : lazy_dot_quote (body ++ dq :: rest) = Some (body, rest)).
    { apply lazy_dot_quote_spec. auto. }
    rewrite E. reflexivity.
Qed.

Lemma findall_error_messages s : Forall error_message (findall s).
Proof.
  induction s as [s IH] using text_suffix_ind.
  destruct s as [|c r].
  - rewrite findall_equation_1. constructor.
  - rewrite findall_cons.
    destruct (match_ERROR_PATTERN (c :: r)) as [[m rest]|] eqn:E.
    + constructor.
      * apply match_ERROR_PATTERN_spec in E. apply E.
      * apply IH. exact (match_ERROR_PATTERN_length _ E).
    + apply IH. simpl. lia.
Qed.

Lemma decimal_not_nl d : is_decimal d = true -> d <> nl.
Proof. intros H ->. vm_compute in H. discriminate. Qed.

Lemma error_message_no_nl m : error_message m -> ~ In nl m.
Proof.
  intros (d1 & d2 & d3 & d4 & x & body & -> & D1 & D2 & D3 & D4 & Hx & _ & Hn).
  apply decimal_not_nl in D1, D2, D3, D4.
  intros [H|[H|[H|[H|[H|[H|[H|H]]]]]]]; try contradiction;
    try (vm_compute in H; discriminate).
Qed.

(** ** Literals and first occurrences *)

Lemma literal_spec pat s r : literal pat s = Some r <-> s = pat ++ r.
Proof.
  revert s; induction pat as [|p pat IH]; intros s; cbn [literal app].
  - split; [intros [= ->]|intros ->]; reflexivity.
  - destruct s as [|c s].
    + split; discriminate.
    + destruct (eqc_spec p c) as [->|Hpc].
      * rewrite IH. split; [intros ->; reflexivity|].
        intros H. apply cons_eq in H. apply H.
      * split; [discriminate|]. intros H. apply cons_eq in H.
        exfalso. apply Hpc. symmetry. apply H.
Qed.

Lemma literal_app pat r : literal pat (pat ++ r) = Some r.
Proof. apply literal_spec. reflexivity. Qed.

Lemma literal_none_app pat s t :
  literal pat (s ++ t) = None -> literal pat s = None.
Proof.
  intros H. destruct (literal pat s) as [r|] eqn:E; [|reflexivity].
  apply literal_spec in E. subst s. rewrite <- app_assoc, literal_app in H.
  discriminate.
Qed.

Lemma lazy_dotall_sound pat s mid post :
  lazy_dotall pat s = Some (mid, post) -> s = mid ++ pat ++ post.
Proof.
  revert mid post; induction s as [|c s IH]; intros mid post;
    cbn [lazy_dotall].
  - destruct (literal pat []) as [r|] eqn:E; [|discriminate].
    intros [= <- <-]. apply literal_spec in E. exact E.
  - destruct (literal pat (c :: s)) as [r|] eqn:E.
    + intros [= <- <-]. apply literal_spec in E. exact E.
    + destruct (lazy_dotall pat s) as [[m p]|]; [|discriminate].
      intros [= <- <-]. rewrite (IH _ _ eq_refl). reflexivity.
Qed.

Lemma literal_app_inv pat s t r :
  literal pat (s ++ t) = Some r -> length pat <= length s ->
  exists r', literal pat s = Some r' /\ r = r' ++ t.
Proof.
  revert s; induction pat as [|p pat IH]; intros s; cbn [literal].
  - intros [= <-] _. exists s. auto.
  - destruct s as [|c s]; cbn [app length]; [lia|].
    cbn [literal]. destruct (eqc p c); [|discriminate].
    intros H Hlen. apply IH; [exact H|lia].
Qed.

Lemma lazy_dotall_min_length pat s mid post :
  lazy_dotall pat s = Some (mid, post) -> length pat <= length s.
Proof.
  intros H. apply lazy_dotall_sound in H. subst s.
  rewrite !length_app. lia.
Qed.

(** The match of [.*?] and the literal depends only on the text up to the
    end of the literal. *)
Lemma lazy_dotall_app pat s mid post t :
  lazy_dotall pat s = Some (mid, post) ->
  lazy_dotall pat (s ++ t) = Some (mid, post ++ t).
Proof.
  revert mid post; induction s as [|c s IH]; intros mid post;
    cbn [lazy_dotall].
  - destruct (literal pat []) as [r|] eqn:E; [|discriminate].
    intros [= <- <-]. apply literal_spec in E.
    destruct pat; [|discriminate]. simpl in E. subst r.
    destruct t; reflexivity.
  - destruct (literal pat (c :: s)) as [r|] eqn:E.
    + intros [= <- <-]. apply literal_spec in E.
      cbn [app lazy_dotall].
      assert (E' : literal pat (c :: s ++ t) = Some (r ++ t)).
      { apply literal_spec. change (c :: s ++ t) with ((c :: s) ++ t).
        rewrite E, app_assoc. reflexivity. }
      rewrite E'. reflexivity.
    + destruct (lazy_dotall pat s) as [[m p]|] eqn:F; [|discriminate].
      intros [= <- <-]. cbn [app lazy_dotall].
      destruct (literal pat (c :: s ++ t)) as [r|] eqn:E'.
      * exfalso. apply lazy_dotall_min_length in F.
        destruct (@literal_app_inv pat (c :: s) t r E') as (r' & E'' & _).
        { simpl. lia. }
        rewrite E in E''. discriminate.
      * rewrite (IH _ _ eq_refl). reflexivity.
Qed.

(** The first occurrence is found whatever follows it. *)
Lemma lazy_dotall_prefix pat s mid post :
  lazy_dotall pat s = Some (mid, post) ->
  lazy_dotall pat (mid ++ pat) = Some (mid, []).
Proof.
  revert mid post; induction s as [|c s IH]; intros mid post;
    cbn [lazy_dotall].
  - destruct (literal pat []) as [r|] eqn:E; [|discriminate].
    intros [= <- <-]. apply literal_spec in E.
    destruct pat; [|discriminate]. reflexivity.
  - destruct (literal pat (c :: s)) as [r|] eqn:E.
    + intros [= <- <-]. cbn [app].
      destruct pat as [|p pat]; [reflexivity|].
      cbn [lazy_dotall].
      rewrite <- (app_nil_r (p :: pat)) at 2. rewrite literal_app.
      reflexivity.
    + destruct (lazy_dotall pat s) as [[m p]|] eqn:F; [|discriminate].
      intros [= <- <-]. cbn [app lazy_dotall].
      rewrite (IH _ _ eq_refl).
      assert (G : literal pat (c :: m ++ pat) = None).
      { apply lazy_dotall_sound in F. subst s.
        apply literal_none_app with (t := p).
        cbn [app]. rewrite <- app_assoc. exact E. }
      rewrite G. reflexivity.
Qed.

Lemma lazy_dotall_first pat s mid post t :
  lazy_dotall pat s = Some (mid, post) ->
  lazy_dotall pat (mid ++ pat ++ t) = Some (mid, t).
Proof.
  intros H. apply lazy_dotall_prefix in H.
  apply lazy_dotall_app with (t := t) in H.
  rewrite <- app_assoc in H. exact H.
Qed.

Lemma lazy_dotall_complete pat a b :
  exists mid post, lazy_dotall pat (a ++ pat ++ b) = Some (mid, post).
Proof.
  induction a as [|c a IH]; cbn [app].
  - exists [], b. destruct (pat ++ b) eqn:E; cbn [lazy_dotall];
      rewrite <- E, literal_app; reflexivity.
  - cbn [lazy_dotall].
    destruct (literal pat (c :: a ++ pat ++ b)) as [r|].
    + exists [], r. reflexivity.
    + destruct IH as (mid & post & ->). exists (c :: mid), post. reflexivity.
Qed.

Lemma lazy_dotall_none pat s :
  lazy_dotall pat s = None <-> ~ occurs pat s.
Proof.
  split.
  - intros H (a & b & ->).
    destruct (lazy_dotall_complete pat a b) as (mid & post & E).
    rewrite E in H. discriminate.
  - intros H. destruct (lazy_dotall pat s) as [[mid post]|] eqn:E;
      [|reflexivity].
    exfalso. apply H. exists mid, post. exact (lazy_dotall_sound _ _ E).
Qed.

Lemma occurs_suffix pat u s : occurs pat s -> occurs pat (u ++ s).
Proof.
  intros (a & b & ->). exists (u ++ a), b. rewrite app_assoc. reflexivity.
Qed.

Lemma lazy_dotall_minimal pat a b mid post :
  lazy_dotall pat (a ++ pat ++ b) = Some (mid, post) -> length mid <= length a.
Proof.
  revert mid post; induction a as [|c a IH]; intros mid post; cbn [app].
  - destruct (pat ++ b) eqn:E; cbn [lazy_dotall];
      rewrite <- E, literal_app; intros [= <- <-]; simpl; lia.
  - cbn [lazy_dotall].
    destruct (literal pat (c :: a ++ pat ++ b)) as [r|].
    + intros [= <- <-]. simpl. lia.
    + destruct (lazy_dotall pat (a ++ pat ++ b)) as [[m p]|]; [|discriminate].
      intros [= <- <-]. specialize (IH _ _ eq_refl). simpl. lia.
Qed.

Lemma app_eq_suffix (x y r r' : text) :
  x ++ r = y ++ r' -> length x <= length y -> exists u, r = u ++ r'.
Proof.
  revert y; induction x as [|a x IH]; intros y; cbn [app].
  - intros -> _. exists y. reflexivity.
  - destruct y as [|b y]; cbn [app length]; [lia|].
    intros H Hlen. apply cons_eq in H. destruct H as [_ H].
    apply (IH y H). lia.
Qed.

(** ** The search for the documentation block *)

(** The leftmost match: the first header, then the first attribute behind
    it. *)
Lemma search_LISTING_eq s :
  search_LISTING s =
  match lazy_dotall ERROR_INITIAL_DOC s with
  | Some (pre, r) =>
      match lazy_dotall MACRO_EXPORT r with
      | Some (mid, post) => Some (pre, mid, post)
      | None => None
      end
  | None => None
  end.
Proof.
  induction s as [|c s IH].
  - reflexivity.
  - cbn [search_LISTING lazy_dotall]. unfold match_LISTING.
    destruct (literal ERROR_INITIAL_DOC (c :: s)) as [r|] eqn:E.
    + destruct (lazy_dotall MACRO_EXPORT r) as [[mid post]|] eqn:F;
        [reflexivity|].
      rewrite IH.
      destruct (lazy_dotall ERROR_INITIAL_DOC s) as [[pre r']|] eqn:G;
        [|reflexivity].
      assert (F' : lazy_dotall MACRO_EXPORT r' = None).
      { apply lazy_dotall_none. intros Ho.
        apply lazy_dotall_none in F. apply F.
        apply literal_spec in E. apply lazy_dotall_sound in G.
        assert (Hs : exists u, r = u ++ r').
        { apply (@app_eq_suffix ERROR_INITIAL_DOC
                   (c :: pre ++ ERROR_INITIAL_DOC)).
          - rewrite <- E, G. cbn [app]. rewrite <- app_assoc. reflexivity.
          - cbn [length]. rewrite length_app. lia. }
        destruct Hs as [u ->]. apply occurs_suffix. exact Ho. }
      rewrite F'. reflexivity.
    + rewrite IH.
      destruct (lazy_dotall ERROR_INITIAL_DOC s) as [[pre r']|];
        [|reflexivity].
      destruct (lazy_dotall MACRO_EXPORT r') as [[mid post]|]; reflexivity.
Qed.

Lemma search_LISTING_sound s pre mid post :
  search_LISTING s = Some (pre, mid, post) ->
  s = pre ++ ERROR_INITIAL_DOC ++ mid ++ MACRO_EXPORT ++ post.
Proof.
  rewrite search_LISTING_eq.
  destruct (lazy_dotall ERROR_INITIAL_DOC s) as [[a r]|] eqn:E; [|discriminate].
  destruct (lazy_dotall MACRO_EXPORT r) as [[b d]|] eqn:F; [|discriminate].
  intros [= <- <- <-].
  apply lazy_dotall_sound in E, F. subst. reflexivity.
Qed.

Lemma search_LISTING_complete s :
  has_block s -> exists pre mid post, search_LISTING s = Some (pre, mid, post).
Proof.
  intros (a & b & c & ->). rewrite search_LISTING_eq.
  destruct (lazy_dotall_complete ERROR_INITIAL_DOC a
              (b ++ MACRO_EXPORT ++ c)) as (pre & r & E).
  rewrite E.
  assert (Hs : exists u, r = u ++ b ++ MACRO_EXPORT ++ c).
  { apply (@app_eq_suffix (pre ++ ERROR_INITIAL_DOC) (a ++ ERROR_INITIAL_DOC)).
    - rewrite <- !app_assoc. symmetry. exact (lazy_dotall_sound _ _ E).
    - apply lazy_dotall_minimal in E. rewrite !length_app. lia. }
  destruct Hs as [u ->].
  destruct (lazy_dotall_complete MACRO_EXPORT (u ++ b) c) as (mid & post & F).
  rewrite <- app_assoc in F. rewrite F.
  exists pre, mid, post. reflexivity.
Qed.

Lemma search_LISTING_none s : search_LISTING s = None <-> ~ has_block s.
Proof.
  split.
  - intros H Hb. apply search_LISTING_complete in Hb.
    destruct Hb as (pre & mid & post & E). rewrite E in H. discriminate.
  - intros H. destruct (search_LISTING s) as [[[pre mid] post]|] eqn:E;
      [|reflexivity].
    exfalso. apply H. exists pre, mid, post.
    exact (search_LISTING_sound _ E).
Qed.

(** The block found in [s] is found again when the text between the header
    and the attribute, and the text behind the block, are exchanged for
    others, if the new text in between holds no attribute. *)
Lemma search_LISTING_first s pre mid post mid' t :
  search_LISTING s = Some (pre, mid, post) ->
  lazy_dotall MACRO_EXPORT (mid' ++ MACRO_EXPORT) = Some (mid', []) ->
  search_LISTING (pre ++ ERROR_INITIAL_DOC ++ mid' ++ MACRO_EXPORT ++ t)
  = Some (pre, mid', t).
Proof.
  rewrite !search_LISTING_eq.
  destruct (lazy_dotall ERROR_INITIAL_DOC s) as [[a r]|] eqn:E; [|discriminate].
  destruct (lazy_dotall MACRO_EXPORT r) as [[b d]|] eqn:F; [|discriminate].
  intros [= <- <- <-] G.
  rewrite (@lazy_dotall_first _ _ _ _ (mid' ++ MACRO_EXPORT ++ t) E).
  apply lazy_dotall_app with (t := t) in G.
  rewrite <- app_assoc in G. cbn [app] in G. rewrite G. reflexivity.
Qed.

(** ** The substitution *)

Lemma sub_LISTING_eq t s :
  sub_LISTING t s =
  match search_LISTING s with
  | Some (pre, mid, post) =>
      pre ++ expand t (ERROR_INITIAL_DOC ++ mid ++ MACRO_EXPORT)
          ++ sub_LISTING t post
  | None => s
  end.
Proof.
  rewrite sub_LISTING_equation_1.
  generalize (inspect (search_LISTING s)).
  intros [[[[pre mid] post]|] e].
  - rewrite sub_LISTING_clause_1_equation_1, e. reflexivity.
  - rewrite sub_LISTING_clause_1_equation_2, e. reflexivity.
Qed.

Lemma sub_LISTING_ext t t' s :
  (forall whole, expand t whole = expand t' whole) ->
  sub_LISTING t s = sub_LISTING t' s.
Proof.
  intros Hext. induction s as [s IH] using text_suffix_ind.
  rewrite (sub_LISTING_eq t), (sub_LISTING_eq t').
  destruct (search_LISTING s) as [[[pre mid] post]|] eqn:E; [|reflexivity].
  rewrite Hext, (IH post (search_LISTING_length _ E)). reflexivity.
Qed.

(** ** The replacement template of a listing without backslash *)

Lemma tokenize_plain t :
  ~ In bslash t -> tokenize t = Ok (map Chr t).
Proof.
  induction t as [|c t IH]; intros Hb; cbn [tokenize map].
  - reflexivity.
  - destruct (eqc_spec c bslash) as [->|_].
    + exfalso. apply Hb. left. reflexivity.
    + rewrite IH; [reflexivity|]. intros H. apply Hb. right. exact H.
Qed.

(** A text that is cut into tokens without error is cut the same way in
    front of any other text. *)
Lemma tokenize_app t1 : forall ts1 t2,
  tokenize t1 = Ok ts1 ->
  tokenize (t1 ++ t2) = (ts2 <- tokenize t2 ;; Ok (ts1 ++ ts2)).
Proof.
  induction t1 as [t1 IH] using text_suffix_ind. intros ts1 t2.
  destruct t1 as [|c r]; cbn [tokenize app].
  - intros [= <-]. destruct (tokenize t2); reflexivity.
  - destruct (eqc c bslash).
    + destruct r as [|d r']; [discriminate|]. cbn [app].
      destruct (tokenize r') as [ts|e] eqn:E; [|discriminate].
      intros [= <-]. rewrite (IH r') with (ts1 := ts); [|simpl; lia|exact E].
      destruct (tokenize t2); reflexivity.
    + destruct (tokenize r) as [ts|e] eqn:E; [|discriminate].
      intros [= <-]. rewrite (IH r) with (ts1 := ts); [|simpl; lia|exact E].
      destruct (tokenize t2); reflexivity.
Qed.

Lemma parse_tokens_plain t ts :
  parse_tokens (map Chr t ++ ts) =
  (ps <- parse_tokens ts ;; Ok (map (fun c => Chars [c]) t ++ ps)).
Proof.
  induction t as [|c t IH]; cbn [map app].
  - destruct (parse_tokens ts); reflexivity.
  - rewrite parse_tokens_equation_2, IH. unfold lappend.
    destruct (parse_tokens ts); reflexivity.
Qed.

Lemma parse_tokens_newline r :
  parse_tokens (Esc (ch "n") :: r) = lappend [nl] (parse_tokens r).
Proof. simp parse_tokens. reflexivity. Qed.

Lemma parse_tokens_g r :
  parse_tokens (Esc (ch "g") :: Chr (ch "<") :: r) =
  match getuntil r with
  | Some (name, r') =>
      index <- group_of_name name ;; addgroup index (parse_tokens r')
  | None => Raise TemplateError
  end.
Proof.
  simp parse_tokens.
  generalize (inspect (getuntil r)). intros [[[name r']|] e];
    simp parse_tokens; rewrite e; reflexivity.
Qed.

Lemma expand_chars t whole :
  expand (map (fun c => Chars [c]) t) whole = t.
Proof.
  unfold expand. induction t as [|c t IH]; cbn [map flat_map]; [reflexivity|].
  rewrite IH. reflexivity.
Qed.

Lemma expand_app t1 t2 whole :
  expand (t1 ++ t2) whole = expand t1 whole ++ expand t2 whole.
Proof. unfold expand. apply flat_map_app. Qed.

Lemma parse_template_plain errors :
  ~ In bslash (join (nl :: str "/// ") errors) ->
  exists t, parse_template (replacement errors) = Ok t /\
            forall whole, expand t whole = block errors.
Proof.
  intros Hb. set (J := join (nl :: str "/// ") errors) in *.
  exists (Group 1 :: Chars [nl] ::
            map (fun c => Chars [c]) (str "/// " ++ J)
            ++ [Chars [nl]; Group 2]).
  split.
  - unfold parse_template, replacement. fold J.
    rewrite (@tokenize_app (str "\g<1>\n/// ")
               [Esc (ch "g"); Chr (ch "<"); Chr (ch "1"); Chr (ch ">");
                Esc (ch "n"); Chr (ch "/"); Chr (ch "/"); Chr (ch "/");
                Chr (ch " ")]); [|reflexivity].
    rewrite (@tokenize_app J (map Chr J)); [|apply tokenize_plain; exact Hb].
    change (tokenize (str "\n\g<2>")) with
      (Ok [Esc (ch "n"); Esc (ch "g"); Chr (ch "<"); Chr (ch "2");
           Chr (ch ">")]).
    cbn [bind app].
    rewrite parse_tokens_g. cbn [getuntil].
    change (eqc (ch "1") (ch ">")) with false.
    change (eqc (ch ">") (ch ">")) with true.
    cbv beta iota.
    change (group_of_name [ch "1"]) with (Ok 1%N). cbn [bind].
    unfold addgroup at 1. change (N.leb 1 pattern_groups) with true.
    cbv beta iota.
    rewrite parse_tokens_newline. unfold lappend at 1.
    change (Chr (ch "/") :: Chr (ch "/") :: Chr (ch "/") :: Chr (ch " ")
              :: map Chr J ++
                 [Esc (ch "n"); Esc (ch "g"); Chr (ch "<"); Chr (ch "2");
                  Chr (ch ">")])
      with (map Chr (str "/// ") ++ map Chr J ++
              [Esc (ch "n"); Esc (ch "g"); Chr (ch "<"); Chr (ch "2");
               Chr (ch ">")]).
    rewrite !parse_tokens_plain.
    change (parse_tokens [Esc (ch "n"); Esc (ch "g"); Chr (ch "<");
                          Chr (ch "2"); Chr (ch ">")])
      with (Ok [Chars [nl]; Group 2]).
    cbn [bind]. rewrite map_app, <- app_assoc. reflexivity.
  - intros whole. unfold block, listing.
    change (Group 1 :: Chars [nl] ::
              map (fun c => Chars [c]) (str "/// " ++ J)
              ++ [Chars [nl]; Group 2])
      with ([Group 1; Chars [nl]] ++
              map (fun c => Chars [c]) (str "/// " ++ J)
              ++ [Chars [nl]; Group 2]).
    rewrite !expand_app, expand_chars. cbn [expand flat_map expand_piece
      group_text app]. rewrite <- !app_assoc. reflexivity.
Qed.

Lemma join_no_bslash sep errors :
  ~ In bslash sep -> Forall (fun m => ~ In bslash m) errors ->
  ~ In bslash (join sep errors).
Proof.
  intros Hs. induction 1 as [|m ms Hm _ IH]; cbn [join]; [intros []|].
  destruct ms as [|m' ms]; [exact Hm|].
  rewrite !in_app_iff. intros [H|[H|H]]; auto.
Qed.

(** Without a backslash in the messages the template compiles, and every
    match is replaced by the same block. *)
Lemma new_content_plain content :
  Forall (fun m => ~ In bslash m) (findall content) ->
  new_content content =
  Ok (sub_LISTING [Chars (block (findall content))] content).
Proof.
  intros Hb. unfold new_content, sub.
  destruct (@parse_template_plain (findall content)) as (t & -> & Ht).
  - apply join_no_bslash; [|exact Hb].
    intros H. vm_compute in H. intuition discriminate.
  - cbn [bind]. f_equal. apply sub_LISTING_ext. intros whole.
    rewrite Ht. unfold expand. cbn [flat_map expand_piece].
    rewrite app_nil_r. reflexivity.
Qed.

(** ** The blocks of a text *)

Lemma blocks_eq s :
  blocks s =
  match search_LISTING s with
  | Some (pre, mid, post) => (pre, mid) :: blocks post
  | None => []
  end.
Proof.
  rewrite blocks_equation_1.
  generalize (inspect (search_LISTING s)).
  intros [[[[pre mid] post]|] e].
  - rewrite blocks_clause_1_equation_1, e. reflexivity.
  - rewrite blocks_clause_1_equation_2, e. reflexivity.
Qed.

Lemma remainder_eq s :
  remainder s =
  match search_LISTING s with
  | Some (pre, mid, post) => remainder post
  | None => s
  end.
Proof.
  rewrite remainder_equation_1.
  generalize (inspect (search_LISTING s)).
  intros [[[[pre mid] post]|] e].
  - rewrite remainder_clause_1_equation_1, e. reflexivity.
  - rewrite remainder_clause_1_equation_2, e. reflexivity.
Qed.


Lemma sub_LISTING_blocks t s :
  sub_LISTING t s = flat_map (rewritten_block t) (blocks s) ++ remainder s.
Proof.
  induction s as [s IH] using text_suffix_ind.
  rewrite sub_LISTING_eq, blocks_eq, remainder_eq.
  destruct (search_LISTING s) as [[[pre mid] post]|] eqn:E; [|reflexivity].
  cbn [flat_map]. unfold rewritten_block at 1. cbn [fst snd].
  rewrite <- !app_assoc, <- (IH post (search_LISTING_length _ E)).
  reflexivity.
Qed.


Lemma listing_lines m ms :
  listing (m :: ms) = comment_lines (m :: ms) ++ [nl].
Proof.
  unfold listing, comment_lines. revert m.
  induction ms as [|m' ms IH]; intros m.
  - cbn [join flat_map]. rewrite app_nil_r. norm_app. reflexivity.
  - change (join (nl :: str "/// ") (m :: m' :: ms))
      with (m ++ (nl :: str "/// ") ++ join (nl :: str "/// ") (m' :: ms)).
    cbn [flat_map]. specialize (IH m'). cbn [flat_map] in IH.
    norm_app. norm_app_in IH. rewrite IH. reflexivity.
Qed.

(** ** Applying the substitution twice *)

Lemma app_eq_prefix (x y r r' : text) :
  x ++ r = y ++ r' -> length x <= length y ->
  exists w, y = x ++ w /\ r = w ++ r'.
Proof.
  revert y; induction x as [|a x IH]; intros y; cbn [app].
  - intros -> _. exists y. auto.
  - destruct y as [|b y]; cbn [app length]; [lia|].
    intros H Hlen. apply cons_eq in H. destruct H as [<- H].
    destruct (IH y H) as (w & -> & ->); [lia|]. exists w. auto.
Qed.

(** A text without the character [c] in front of another text ends before
    the first [c]. *)
Lemma prefix_before (k b u v : text) (c : char) :
  k ++ b = u ++ c :: v -> ~ In c k -> exists z, u = k ++ z.
Proof.
  revert u; induction k as [|a k IH]; intros u; cbn [app].
  - intros _ _. exists u. reflexivity.
  - intros H Hc. destruct u as [|a' u]; cbn [app] in H;
      apply cons_eq in H; destruct H as [Ha H].
    + exfalso. apply Hc. left. exact Ha.
    + subst a'. destruct (IH u H) as [z ->].
      * intros Hi. apply Hc. right. exact Hi.
      * exists z. reflexivity.
Qed.

Lemma occurs_split pat u c v :
  ~ In c pat -> occurs pat (u ++ c :: v) -> occurs pat u \/ occurs pat v.
Proof.
  intros Hc (a & b & H). revert a H.
  induction u as [|x u IH]; intros a H; cbn [app] in H.
  - destruct a as [|y a]; cbn [app] in H.
    + destruct pat as [|p pat]; [left; exists [], []; reflexivity|].
      cbn [app] in H. apply cons_eq in H. destruct H as [<- _].
      exfalso. apply Hc. left. reflexivity.
    + apply cons_eq in H. destruct H as [_ ->]. right. exists a, b.
      reflexivity.
  - destruct a as [|y a]; cbn [app] in H.
    + left. symmetry in H.
      destruct (@prefix_before pat b (x :: u) v c H Hc) as [z ->].
      exists [], z. reflexivity.
    + apply cons_eq in H. destruct H as [<- H].
      destruct (IH a H) as [(a' & b' & ->)|Hv].
      * left. exists (x :: a'), b'. reflexivity.
      * right. exact Hv.
Qed.

Lemma occurs_cons p pat c s :
  p <> c -> occurs (p :: pat) (c :: s) -> occurs (p :: pat) s.
Proof.
  intros Hpc ([|y a] & b & H); cbn [app] in H;
    apply cons_eq in H; destruct H as [Hc H].
  - exfalso. apply Hpc. symmetry. exact Hc.
  - exists a, b. exact H.
Qed.

Lemma attribute_head :
  MACRO_EXPORT = ch "#" :: str "[macro_export]".
Proof. reflexivity. Qed.

Lemma attribute_no_nl : ~ In nl MACRO_EXPORT.
Proof. intros H. vm_compute in H. intuition discriminate. Qed.

Lemma attribute_no_dq : ~ In dq MACRO_EXPORT.
Proof. intros H. vm_compute in H. intuition discriminate. Qed.

Lemma header_no_dq : ~ In dq ERROR_INITIAL_DOC.
Proof. intros H. vm_compute in H. intuition discriminate. Qed.

(** The attribute occurs in a comment line only inside the message. *)
Lemma occurs_comment_line m :
  occurs MACRO_EXPORT (nl :: str "/// " ++ m) -> occurs MACRO_EXPORT m.
Proof.
  rewrite attribute_head.
  change (nl :: str "/// " ++ m)
    with (nl :: ch "/" :: ch "/" :: ch "/" :: ch " " :: m).
  intros H.
  do 5 (apply occurs_cons in H; [|intros E; vm_compute in E; discriminate]).
  exact H.
Qed.

Lemma join_no_attribute errors :
  Forall (fun m => ~ occurs MACRO_EXPORT m) errors ->
  ~ occurs MACRO_EXPORT (nl :: str "/// " ++ join (nl :: str "/// ") errors).
Proof.
  induction 1 as [|m ms Hm _ IH].
  - apply lazy_dotall_none. vm_compute. reflexivity.
  - destruct ms as [|m' ms].
    + cbn [join]. intros H. apply Hm. exact (occurs_comment_line H).
    + change (join (nl :: str "/// ") (m :: m' :: ms))
        with (m ++ (nl :: str "/// ") ++ join (nl :: str "/// ") (m' :: ms)).
      intros H.
      change (nl :: str "/// " ++ m ++ (nl :: str "/// ")
                ++ join (nl :: str "/// ") (m' :: ms))
        with (nl :: str "/// "
                ++ (m ++ nl :: str "/// " ++ join (nl :: str "/// ") (m' :: ms)))
        in H.
      apply occurs_comment_line in H.
      apply occurs_split in H; [|exact attribute_no_nl].
      destruct H as [H|H]; [exact (Hm H)|].
      apply IH. apply (occurs_suffix [nl]) in H. exact H.
Qed.

(** When no message holds the attribute, the first attribute behind the
    header of a new block is the one that ends the block. *)
Lemma listing_ends_at_attribute errors :
  Forall (fun m => ~ occurs MACRO_EXPORT m) errors ->
  lazy_dotall MACRO_EXPORT (listing errors ++ MACRO_EXPORT)
  = Some (listing errors, []).
Proof.
  intros Hm. apply join_no_attribute in Hm.
  set (R' := nl :: str "/// " ++ join (nl :: str "/// ") errors) in *.
  assert (HR : listing errors = R' ++ [nl]).
  { unfold listing, R'. norm_app. reflexivity. }
  rewrite HR. clear HR.
  destruct (lazy_dotall_complete MACRO_EXPORT (R' ++ [nl]) [])
    as (mid & post & E).
  rewrite app_nil_r in E. rewrite E.
  assert (Hlen : length mid <= length (R' ++ [nl])).
  { apply (@lazy_dotall_minimal MACRO_EXPORT (R' ++ [nl]) [] mid post).
    rewrite app_nil_r. exact E. }
  apply lazy_dotall_sound in E. symmetry in E.
  destruct (app_eq_prefix _ _ _ _ E Hlen) as (w & Hw1 & Hw2).
  destruct w as [|x w'] using rev_ind.
  - rewrite app_nil_r in Hw1. cbn [app] in Hw2. subst mid.
    rewrite <- (app_nil_r MACRO_EXPORT) in Hw2 at 2.
    apply app_inv_head in Hw2. subst post. reflexivity.
  - clear IHw'. exfalso. apply Hm.
    rewrite app_assoc in Hw1. apply app_inj_tail in Hw1.
    destruct Hw1 as [HR Hx]. subst x.
    rewrite <- app_assoc in Hw2. cbn [app] in Hw2.
    destruct (@prefix_before MACRO_EXPORT post w' MACRO_EXPORT nl Hw2
                attribute_no_nl) as [z ->].
    exists mid, z. exact HR.
Qed.

(** With a block that ends at its attribute, the substitution changes
    nothing in a text it has produced. *)
Lemma expand_Chars B whole : expand [Chars B] whole = B.
Proof. unfold expand. cbn [flat_map expand_piece]. apply app_nil_r. Qed.

Lemma sub_LISTING_twice R s :
  lazy_dotall MACRO_EXPORT (R ++ MACRO_EXPORT) = Some (R, []) ->
  sub_LISTING [Chars (ERROR_INITIAL_DOC ++ R ++ MACRO_EXPORT)]
    (sub_LISTING [Chars (ERROR_INITIAL_DOC ++ R ++ MACRO_EXPORT)] s)
  = sub_LISTING [Chars (ERROR_INITIAL_DOC ++ R ++ MACRO_EXPORT)] s.
Proof.
  intros HR. set (t := [Chars (ERROR_INITIAL_DOC ++ R ++ MACRO_EXPORT)]).
  assert (Ht : forall whole,
             expand t whole = ERROR_INITIAL_DOC ++ R ++ MACRO_EXPORT).
  { intros whole. apply expand_Chars. }
  induction s as [s IH] using text_suffix_ind.
  rewrite (sub_LISTING_eq t s).
  destruct (search_LISTING s) as [[[pre mid] post]|] eqn:E.
  - rewrite Ht. norm_app. rewrite sub_LISTING_eq.
    rewrite (@search_LISTING_first s pre mid post R (sub_LISTING t post) E HR).
    rewrite Ht. norm_app.
    rewrite (IH post (search_LISTING_length _ E)). reflexivity.
  - rewrite sub_LISTING_eq, E. reflexivity.
Qed.

(** ** The scan over a text that the substitution has produced *)

Lemma match_ERROR_PATTERN_app u v m rest :
  match_ERROR_PATTERN u = Some (m, rest) ->
  match_ERROR_PATTERN (u ++ v) = Some (m, rest ++ v).
Proof.
  intros H. apply match_ERROR_PATTERN_spec in H. destruct H as [-> Hm].
  apply match_ERROR_PATTERN_spec. split; [|exact Hm].
  norm_app. reflexivity.
Qed.

(** A match that begins in [u] and is no match of [u] alone ends in [v], at
    a double quote. *)
Lemma match_ERROR_PATTERN_straddle u v m rest :
  match_ERROR_PATTERN u = None ->
  match_ERROR_PATTERN (u ++ v) = Some (m, rest) ->
  exists w, dq :: m = u ++ w /\ v = w ++ dq :: rest /\ error_message m.
Proof.
  intros Hu Huv. apply match_ERROR_PATTERN_spec in Huv.
  destruct Huv as [E Hm].
  destruct (Nat.le_gt_cases (length (dq :: m ++ [dq])) (length u))
    as [Hle|Hgt].
  - exfalso.
    assert (E' : (dq :: m ++ [dq]) ++ rest = u ++ v).
    { rewrite E. norm_app. reflexivity. }
    destruct (app_eq_prefix _ _ _ _ E' Hle) as (w & -> & _).
    assert (Hs : match_ERROR_PATTERN ((dq :: m ++ [dq]) ++ w) = Some (m, w)).
    { apply match_ERROR_PATTERN_spec. split; [|exact Hm].
      norm_app. reflexivity. }
    rewrite Hs in Hu. discriminate.
  - assert (E' : u ++ v = (dq :: m ++ [dq]) ++ rest).
    { rewrite E. norm_app. reflexivity. }
    destruct (app_eq_prefix _ _ _ _ E' (Nat.lt_le_incl _ _ Hgt))
      as (w & Hw1 & Hw2).
    destruct w as [|x w'] using rev_ind.
    + rewrite app_nil_r in Hw1. rewrite <- Hw1 in Hgt. lia.
    + clear IHw'. change (dq :: m ++ [dq]) with ((dq :: m) ++ [dq]) in Hw1.
      rewrite app_assoc in Hw1. apply app_inj_tail in Hw1.
      destruct Hw1 as [Hw1 <-]. exists w'. split; [exact Hw1|].
      split; [|exact Hm]. rewrite Hw2. norm_app. reflexivity.
Qed.

Lemma findall_app_dead (u v : text) :
  dead v -> findall (u ++ v) = findall u ++ findall v.
Proof.
  intros Hv. induction u as [u IH] using text_suffix_ind.
  destruct u as [|c r]; [rewrite findall_equation_1; reflexivity|].
  destruct (match_ERROR_PATTERN (c :: r)) as [[m rest]|] eqn:E.
  - rewrite (findall_match _ E).
    rewrite (findall_match _ (@match_ERROR_PATTERN_app _ v _ _ E)).
    rewrite (IH rest (match_ERROR_PATTERN_length _ E)). reflexivity.
  - rewrite (findall_skip _ _ E). cbn [app].
    rewrite findall_skip; [apply IH; simpl; lia|].
    destruct (match_ERROR_PATTERN (c :: r ++ v)) as [[m rest]|] eqn:F;
      [|reflexivity].
    exfalso. exact (Hv (c :: r) m rest E F).
Qed.

(** A line feed before the next double quote ends every pending match. *)
Lemma dead_before_nl (k z : text) : ~ In dq k -> dead (k ++ nl :: z).
Proof.
  intros Hk u m rest Hu Huv.
  destruct (@match_ERROR_PATTERN_straddle _ _ _ _ Hu Huv)
    as (w & Hw1 & Hw2 & Hm).
  destruct (@prefix_before k (nl :: z) w rest dq Hw2 Hk) as [z' ->].
  rewrite <- app_assoc in Hw2. apply app_inv_head in Hw2.
  destruct z' as [|x z']; cbn [app] in Hw2;
    apply cons_eq in Hw2; destruct Hw2 as [Hx _].
  - vm_compute in Hx. discriminate.
  - subst x. apply (@error_message_no_nl _ Hm).
    assert (Hin : In nl (dq :: m)).
    { rewrite Hw1. rewrite !in_app_iff. right. right. left. reflexivity. }
    destruct Hin as [Hin|Hin]; [vm_compute in Hin; discriminate|exact Hin].
Qed.

Lemma findall_skip_no_quote k post :
  ~ In dq k -> findall (k ++ post) = findall post.
Proof.
  induction k as [|c k IH]; intros Hk; [reflexivity|].
  cbn [app]. rewrite findall_skip.
  - apply IH. intros H. apply Hk. right. exact H.
  - destruct (match_ERROR_PATTERN (c :: k ++ post)) as [[m rest]|] eqn:E;
      [|reflexivity].
    apply match_ERROR_PATTERN_spec in E. destruct E as [E _].
    apply cons_eq in E. destruct E as [-> _].
    exfalso. apply Hk. left. reflexivity.
Qed.

Lemma findall_no_quote k : ~ In dq k -> findall k = [].
Proof.
  intros Hk. rewrite <- (app_nil_r k), (@findall_skip_no_quote k [] Hk).
  apply findall_equation_1.
Qed.

Lemma decimal_not_dq d : is_decimal d = true -> d <> dq.
Proof. intros H ->. vm_compute in H. discriminate. Qed.

(** A message, out of its quotes, holds no literal. *)
Lemma findall_error_message m : error_message m -> findall m = [].
Proof.
  intros (d1 & d2 & d3 & d4 & x & body & -> & D1 & D2 & D3 & D4 & _ & Hq & _).
  apply decimal_not_dq in D1, D2, D3, D4.
  change (ch "E" :: d1 :: d2 :: d3 :: d4 :: ch ":" :: x :: body)
    with ([ch "E"; d1; d2; d3; d4; ch ":"] ++ x :: body).
  rewrite findall_skip_no_quote.
  - rewrite findall_skip; [exact (@findall_no_quote _ Hq)|].
    destruct (match_ERROR_PATTERN (x :: body)) as [[m rest]|] eqn:E;
      [|reflexivity].
    apply match_ERROR_PATTERN_spec in E. destruct E as [E _].
    apply cons_eq in E. destruct E as [_ ->].
    exfalso. apply Hq. rewrite in_app_iff. right. left. reflexivity.
  - intros [H|[H|[H|[H|[H|[H|[]]]]]]]; try contradiction;
      vm_compute in H; discriminate.
Qed.

Lemma findall_comment_lines errors T :
  Forall error_message errors ->
  findall (comment_lines errors ++ nl :: T) = findall T.
Proof.
  unfold comment_lines.
  induction 1 as [|m ms Hm _ IH]; cbn [flat_map app].
  - apply (@findall_skip_no_quote [nl] T).
    intros [H|[]]. vm_compute in H. discriminate.
  - set (L := flat_map (fun m0 => nl :: str "/// " ++ m0) ms) in *.
    replace (nl :: ((str "/// " ++ m) ++ L) ++ nl :: T)
      with (((nl :: str "/// ") ++ m) ++ (L ++ nl :: T))
      by (norm_app; reflexivity).
    rewrite findall_app_dead.
    + rewrite IH, findall_skip_no_quote, (@findall_error_message _ Hm);
        [reflexivity|].
      intros H. vm_compute in H. intuition discriminate.
    + subst L. destruct ms as [|m' ms]; cbn [flat_map app];
        apply (@dead_before_nl []); intros [].
Qed.

Lemma findall_listing errors T :
  Forall error_message errors ->
  findall (listing errors ++ T) = findall T.
Proof.
  intros He. destruct errors as [|m ms].
  - apply findall_skip_no_quote.
    intros H. vm_compute in H. intuition discriminate.
  - rewrite listing_lines, <- app_assoc. cbn [app].
    apply findall_comment_lines. exact He.
Qed.

(** The scan passes over a block without double quote, if no message of
    the text holds the attribute. *)
Lemma findall_app_block (pre k post : text) :
  ~ In dq k -> occurs MACRO_EXPORT k ->
  Forall (fun m => ~ occurs MACRO_EXPORT m) (findall (pre ++ k ++ post)) ->
  findall (pre ++ k ++ post) = findall pre ++ findall post.
Proof.
  intros Hk Ho. induction pre as [pre IH] using text_suffix_ind.
  destruct pre as [|c r]; intros Hf.
  - rewrite findall_equation_1. cbn [app].
    apply findall_skip_no_quote. exact Hk.
  - destruct (match_ERROR_PATTERN (c :: r)) as [[m rest]|] eqn:E.
    + rewrite (findall_match _ E).
      rewrite (findall_match _ (@match_ERROR_PATTERN_app _ (k ++ post) _ _ E)) in *.
      rewrite (IH rest (match_ERROR_PATTERN_length _ E)); [reflexivity|].
      inversion Hf. assumption.
    + rewrite (findall_skip _ _ E).
      destruct (match_ERROR_PATTERN ((c :: r) ++ k ++ post))
        as [[m rest]|] eqn:F.
      * exfalso. rewrite (findall_match _ F) in Hf.
        apply Forall_inv in Hf. apply Hf.
        destruct (@match_ERROR_PATTERN_straddle _ _ _ _ E F)
          as (w & Hw1 & Hw2 & _).
        destruct (@prefix_before k post w rest dq Hw2 Hk) as [z ->].
        cbn [app] in Hw1. apply cons_eq in Hw1. destruct Hw1 as [_ ->].
        apply occurs_suffix.
        destruct Ho as (a & b & ->). exists a, (b ++ z).
        norm_app. reflexivity.
      * cbn [app] in *. rewrite (findall_skip _ _ F) in *.
        apply IH; [simpl; lia|exact Hf].
Qed.

(** The scan of the new text finds the messages of the text that was read,
    when no message holds the attribute and no block a double quote. *)
Lemma findall_sub_LISTING (errors : list text) (s : text) :
  Forall error_message errors ->
  Forall (fun m => ~ occurs MACRO_EXPORT m) (findall s) ->
  Forall (fun b => ~ In dq (snd b)) (blocks s) ->
  findall (sub_LISTING [Chars (block errors)] s) = findall s.
Proof.
  intros He. induction s as [s IH] using text_suffix_ind.
  rewrite sub_LISTING_eq, blocks_eq.
  destruct (search_LISTING s) as [[[pre mid] post]|] eqn:E; [|reflexivity].
  intros Hf Hb. apply Forall_cons_iff in Hb. destruct Hb as [Hmid Hb].
  cbn [snd] in Hmid.
  assert (Hs := search_LISTING_sound _ E).
  assert (Hk : ~ In dq (ERROR_INITIAL_DOC ++ mid ++ MACRO_EXPORT)).
  { rewrite !in_app_iff. intros [H|[H|H]];
      [exact (header_no_dq H)|exact (Hmid H)|exact (attribute_no_dq H)]. }
  assert (Hx : findall s = findall pre ++ findall post).
  { rewrite Hs in Hf |- *.
    replace (pre ++ ERROR_INITIAL_DOC ++ mid ++ MACRO_EXPORT ++ post)
      with (pre ++ (ERROR_INITIAL_DOC ++ mid ++ MACRO_EXPORT) ++ post) in *
      by (norm_app; reflexivity).
    apply findall_app_block; [exact Hk| |exact Hf].
    exists (ERROR_INITIAL_DOC ++ mid), []. norm_app.
    rewrite app_nil_r. reflexivity. }
  rewrite Hx in Hf. apply Forall_app in Hf. destruct Hf as [_ Hf].
  rewrite expand_Chars. unfold block.
  replace ((ERROR_INITIAL_DOC ++ listing errors ++ MACRO_EXPORT)
             ++ sub_LISTING [Chars (ERROR_INITIAL_DOC ++ listing errors
                                      ++ MACRO_EXPORT)] post)
    with (ERROR_INITIAL_DOC ++ nl ::
            (str "/// " ++ join (nl :: str "/// ") errors ++ [nl])
            ++ MACRO_EXPORT
            ++ sub_LISTING [Chars (block errors)] post)
    by (unfold block, listing; norm_app; reflexivity).
  rewrite findall_app_dead; [|apply dead_before_nl; exact header_no_dq].
  rewrite (@findall_skip_no_quote _ _ header_no_dq).
  change (nl :: (str "/// " ++ join (nl :: str "/// ") errors ++ [nl])
             ++ MACRO_EXPORT ++ sub_LISTING [Chars (block errors)] post)
    with (listing errors
            ++ MACRO_EXPORT ++ sub_LISTING [Chars (block errors)] post).
  rewrite (@findall_listing _ _ He).
  rewrite (@findall_skip_no_quote _ _ attribute_no_dq).
  rewrite (IH post (search_LISTING_length _ E) Hf Hb), Hx. reflexivity.
Qed.

(** ** The scan as the leftmost literals *)

Lemma literal_at_match s m rest :
  literal_at s m rest <-> match_ERROR_PATTERN s = Some (m, rest).
Proof. unfold literal_at. symmetry. apply match_ERROR_PATTERN_spec. Qed.

Lemma scan_of_findall (s : text) : scan_of s (findall s).
Proof.
  induction s as [s IH] using text_suffix_ind.
  destruct s as [|c r].
  - rewrite findall_equation_1. constructor.
  - rewrite findall_cons.
    destruct (match_ERROR_PATTERN (c :: r)) as [[m rest]|] eqn:E.
    + apply scan_literal with (rest := rest).
      * apply literal_at_match. exact E.
      * apply IH. exact (match_ERROR_PATTERN_length _ E).
    + apply scan_char.
      * intros m rest H. apply literal_at_match in H. congruence.
      * apply IH. simpl. lia.
Qed.

Lemma scan_of_unique (s : text) ms : scan_of s ms -> ms = findall s.
Proof.
  induction 1 as [|s m rest ms Hl _ IH|c r ms Hn _ IH].
  - symmetry. apply findall_equation_1.
  - apply literal_at_match in Hl. rewrite (findall_match _ Hl), IH.
    reflexivity.
  - rewrite findall_skip; [exact IH|].
    destruct (match_ERROR_PATTERN (c :: r)) as [[m rest]|] eqn:E;
      [|reflexivity].
    exfalso. apply (Hn m rest). apply literal_at_match. exact E.
Qed.

(** ** Runs of the script *)



(** * The statements of the specification *)

(** ** Extraction *)

(** C8 (as the specification states it, refuted): a code written with
    decimal digits of other scripts than [0] to [9] is extracted. *)
Lemma code_digits_counterexample :
  let m := [ch "E"; 1632; 2407; 65298; 120785; ch ":"; ch " "; ch "x"]%N in
  findall (dq :: m ++ [dq]) = [m] /\
  ~ (exists d1 d2 d3 d4 rest,
       m = ch "E" :: d1 :: d2 :: d3 :: d4 :: ch ":" :: rest /\
       DIGITS d1 = true /\ DIGITS d2 = true /\
       DIGITS d3 = true /\ DIGITS d4 = true).
Proof.
  cbv zeta. split; [vm_compute; reflexivity|].
  intros (d1 & d2 & d3 & d4 & rest & E & D1 & _).
  apply cons_eq in E. destruct E as [_ E].
  apply cons_eq in E. destruct E as [<- _].
  vm_compute in D1. discriminate.
Qed.

(** C8 (amended): every extracted message begins with [E], exactly four
    characters of the class [\d], which are the decimal digits of Unicode
    and among them [0] to [9], and a colon; a literal with a shorter code,
    such as ["E12: short"], is never extracted, from no text. *)
Theorem extracted_code_has_four_digits (content : text) :
  Forall (fun m => exists d1 d2 d3 d4 rest,
            m = ch "E" :: d1 :: d2 :: d3 :: d4 :: ch ":" :: rest /\
            is_decimal d1 = true /\ is_decimal d2 = true /\
            is_decimal d3 = true /\ is_decimal d4 = true)
         (findall content)
  /\ is_decimal (ch ":") = false
  /\ ~ In (str "E12: short") (findall content)
  /\ findall (dq :: str "E12: short" ++ [dq]) = []
  /\ (forall c, DIGITS c = true -> is_decimal c = true).
Proof.
  assert (F := findall_error_messages content).
  split; [|split; [reflexivity|split; [|split; [reflexivity|]]]].
  - eapply Forall_impl; [|exact F].
    intros m (d1 & d2 & d3 & d4 & x & body & -> & D1 & D2 & D3 & D4 & _).
    exists d1, d2, d3, d4, (x :: body). auto.
  - intros Hin. rewrite Forall_forall in F. apply F in Hin.
    destruct Hin as (d1 & d2 & d3 & d4 & x & body & E & _ & _ & D3 & _).
    apply cons_eq in E. destruct E as [_ E].
    apply cons_eq in E. destruct E as [_ E].
    apply cons_eq in E. destruct E as [_ E].
    apply cons_eq in E. destruct E as [<- _].
    vm_compute in D3. discriminate.
  - intros c Hc. unfold DIGITS, in_range in Hc.
    unfold is_decimal, decimal_ranges. cbn [existsb fst snd].
    change (ch "0") with 48%N in Hc. change (ch "9") with 57%N in Hc.
    rewrite Hc. reflexivity.
Qed.



(** ** The regenerated block *)

(** C7: when the scan yields ["E0001: bad input"] and then
    ["E0002: missing field"], the block of the text becomes the header, one
    comment line for each message in that order, and the attribute. *)
Theorem example_block (content pre mid post : text) :
  findall content = [str "E0001: bad input"; str "E0002: missing field"] ->
  search_LISTING content = Some (pre, mid, post) ->
  new_content content =
  Ok (pre ++ str "/// Macro to produce nice errors" ++ [nl]
          ++ str "/// E0001: bad input" ++ [nl]
          ++ str "/// E0002: missing field" ++ [nl]
          ++ str "#[macro_export]"
          ++ sub_LISTING [Chars (block (findall content))] post).
Proof.
  intros Hf Hs. rewrite new_content_plain.
  - rewrite sub_LISTING_eq, Hs, Hf. reflexivity.
  - rewrite Hf. repeat constructor; intros H; vm_compute in H;
      intuition discriminate.
Qed.

Lemma example_block_witness : new_content example_input = Ok example_output.
Proof.
  apply (@example_block example_input
           (dq :: str "E0001: bad input" ++ [dq; nl]
               ++ dq :: str "E0002: missing field" ++ [dq; nl])
           [nl] [nl]).
  - vm_compute. reflexivity.
  - vm_compute. reflexivity.
Defined.

(** C1 (as the specification states it, refuted): with the header directly
    followed by the attribute and no message in the text, the new text does
    not hold the header line followed at once by the attribute line. *)
Lemma empty_listing_counterexample :
  let content := ERROR_INITIAL_DOC ++ [nl] ++ MACRO_EXPORT in
  findall content = [] /\
  has_block content /\
  new_content content =
    Ok (ERROR_INITIAL_DOC ++ [nl] ++ str "/// " ++ [nl] ++ MACRO_EXPORT) /\
  ~ occurs (ERROR_INITIAL_DOC ++ [nl] ++ MACRO_EXPORT)
      (ERROR_INITIAL_DOC ++ [nl] ++ str "/// " ++ [nl] ++ MACRO_EXPORT).
Proof.
  cbv zeta. split; [vm_compute; reflexivity|].
  split; [exists [], [nl], []; reflexivity|].
  split; [vm_compute; reflexivity|].
  apply lazy_dotall_none. vm_compute. reflexivity.
Qed.

(** C1 (amended): when the text holds a block and no message, the block
    becomes the header line, one comment line that holds only the comment
    prefix [/// ], and the attribute line. *)
Theorem empty_listing_block (content : text) :
  findall content = [] ->
  has_block content ->
  exists pre mid post,
    search_LISTING content = Some (pre, mid, post) /\
    new_content content =
    Ok (pre ++ ERROR_INITIAL_DOC ++ [nl] ++ str "/// " ++ [nl]
            ++ MACRO_EXPORT ++ sub_LISTING [Chars (block [])] post).
Proof.
  intros Hf Hb.
  destruct (search_LISTING_complete Hb) as (pre & mid & post & Hs).
  exists pre, mid, post. split; [exact Hs|].
  rewrite new_content_plain.
  - rewrite sub_LISTING_eq, Hs, Hf. unfold expand, block, listing.
    cbn [flat_map expand_piece join app]. rewrite app_nil_r.
    rewrite <- !app_assoc. reflexivity.
  - rewrite Hf. constructor.
Qed.

Lemma empty_listing_block_witness :
  exists pre mid post,
    search_LISTING (ERROR_INITIAL_DOC ++ [nl] ++ MACRO_EXPORT)
    = Some (pre, mid, post) /\
    new_content (ERROR_INITIAL_DOC ++ [nl] ++ MACRO_EXPORT) =
    Ok (pre ++ ERROR_INITIAL_DOC ++ [nl] ++ str "/// " ++ [nl]
            ++ MACRO_EXPORT ++ sub_LISTING [Chars (block [])] post).
Proof.
  apply (@empty_listing_block (ERROR_INITIAL_DOC ++ [nl] ++ MACRO_EXPORT)).
  - vm_compute. reflexivity.
  - exists [], [nl], []. reflexivity.
Defined.

(** ** Output *)




(** When [print] fails, the file has been truncated and nothing written to
    it: it is left empty. *)
Lemma print_failure_leaves_file_empty :
  main mute (World (Holds (str "fn main() {}")) [])
  = (Raise UnicodeEncodeError, World (Holds []) []).
Proof. vm_compute. reflexivity. Qed.

(** ** The two passes *)



(** ** Several blocks *)



Lemma two_blocks_found :
  blocks two_blocks = [(str "a", str "old"); (str "b", str "older")]
  /\ remainder two_blocks = str "c".
Proof. split; vm_compute; reflexivity. Qed.

(** ** Messages that hold a backslash *)

(** The scan lists the messages in the order of their literals in the text,
    every literal once: the text is the literals, each behind a gap, and
    what follows the last one. *)
Lemma findall_in_order s :
  exists gaps rest,
    length gaps = length (findall s) /\
    s = flat_map (fun gm => fst gm ++ dq :: snd gm ++ [dq])
          (combine gaps (findall s)) ++ rest.
Proof.
  induction s as [s IH] using text_suffix_ind.
  destruct s as [|c r].
  - exists [], []. rewrite findall_equation_1. split; reflexivity.
  - rewrite findall_cons.
    destruct (match_ERROR_PATTERN (c :: r)) as [[m rest]|] eqn:E.
    + destruct (IH rest (match_ERROR_PATTERN_length _ E))
        as (gaps & tl & Hlen & Hs).
      exists ([] :: gaps), tl. split; [simpl; lia|].
      cbn [combine flat_map fst snd app].
      apply match_ERROR_PATTERN_spec in E. destruct E as [E _].
      rewrite E. cbn [app]. rewrite <- !app_assoc. cbn [app].
      rewrite <- Hs. reflexivity.
    + destruct (IH r) as (gaps & tl & Hlen & Hs); [simpl; lia|].
      destruct (findall r) as [|m ms] eqn:F.
      * exists [], (c :: r). split; reflexivity.
      * destruct gaps as [|g gaps]; [discriminate|].
        exists ((c :: g) :: gaps), tl. split; [exact Hlen|].
        cbn [combine flat_map fst snd app] in *. rewrite Hs at 1.
        reflexivity.
Qed.

(** Without a backslash in the messages, every block of the new text is the
    header, the comment lines of the messages in the order of the scan, and
    the attribute. *)
Lemma plain_messages_listed_in_order content m ms :
  findall content = m :: ms ->
  Forall (fun m => ~ In bslash m) (m :: ms) ->
  new_content content =
  Ok (sub_LISTING
        [Chars (ERROR_INITIAL_DOC ++ comment_lines (m :: ms) ++ [nl]
                  ++ MACRO_EXPORT)] content).
Proof.
  intros Hf Hb. rewrite new_content_plain; rewrite Hf; [|exact Hb].
  unfold block. rewrite listing_lines, <- app_assoc. reflexivity.
Qed.

(** C5 (the script at the failing input): the escape [\n] inside the one
    message of the text is expanded by the template, and the message fills
    two lines of the block, the second without comment prefix. *)
Theorem escape_in_message_splits_line :
  let content :=
    dq :: str "E0001: a\nb" ++ [dq; nl]
       ++ ERROR_INITIAL_DOC ++ [nl] ++ MACRO_EXPORT in
  findall content = [str "E0001: a\nb"] /\
  new_content content =
  Ok (dq :: str "E0001: a\nb" ++ [dq; nl]
         ++ ERROR_INITIAL_DOC ++ [nl]
         ++ str "/// E0001: a" ++ [nl]
         ++ str "b" ++ [nl]
         ++ MACRO_EXPORT).
Proof. cbv zeta. split; vm_compute; reflexivity. Qed.

(** A backslash that ends the last message swallows the line feed in front
    of the attribute. *)
Lemma trailing_backslash_joins_attribute :
  let content :=
    dq :: str "E0001: say \" ++ [dq] ++ str "hi\" ++ [dq; dq; nl]
       ++ ERROR_INITIAL_DOC ++ [nl] ++ MACRO_EXPORT in
  findall content = [str "E0001: say \"] /\
  new_content content =
  Ok (dq :: str "E0001: say \" ++ [dq] ++ str "hi\" ++ [dq; dq; nl]
         ++ ERROR_INITIAL_DOC ++ [nl]
         ++ str "/// E0001: say \n#[macro_export]").
Proof. cbv zeta. split; vm_compute; reflexivity. Qed.

(** ** Texts without block *)

(** Without block the substitution returns the text, if the template
    compiles. *)
Lemma no_block_unchanged content t :
  ~ has_block content ->
  parse_template (replacement (findall content)) = Ok t ->
  new_content content = Ok content.
Proof.
  intros Hb Ht. unfold new_content, sub. rewrite Ht. cbn [bind].
  rewrite sub_LISTING_eq.
  apply search_LISTING_none in Hb. rewrite Hb. reflexivity.
Qed.

Lemma no_block_plain_unchanged content :
  ~ has_block content ->
  Forall (fun m => ~ In bslash m) (findall content) ->
  new_content content = Ok content.
Proof.
  intros Hb Hp. rewrite new_content_plain by exact Hp.
  rewrite sub_LISTING_eq.
  apply search_LISTING_none in Hb. rewrite Hb. reflexivity.
Qed.

(** C6 (the script at the failing input): the text holds no block, the
    escape [\u] of its one message is no escape of a replacement template,
    and the script raises before it opens the file for writing. *)
Theorem bad_escape_raises_without_block :
  let content := dq :: str "E0001: invalid \u{0} in name" ++ [dq; nl] in
  ~ has_block content /\
  findall content = [str "E0001: invalid \u{0} in name"] /\
  new_content content = Raise TemplateError /\
  (forall e : env,
     main e (World (Holds content) [])
     = (Raise TemplateError, World (Holds content) [])).
Proof.
  cbv zeta. split; [|repeat split; vm_compute; reflexivity].
  apply search_LISTING_none. vm_compute. reflexivity.
Qed.

(** ** Idempotence *)

(** C3 (as the specification states it, refuted): a literal between the
    header and the attribute is listed by the first application and removed
    with the old block, so the second application lists nothing. *)
Lemma idempotence_counterexample :
  let content :=
    ERROR_INITIAL_DOC ++ dq :: str "E0001: x" ++ [dq] ++ MACRO_EXPORT in
  let once :=
    ERROR_INITIAL_DOC ++ [nl] ++ str "/// E0001: x" ++ [nl] ++ MACRO_EXPORT in
  let twice :=
    ERROR_INITIAL_DOC ++ [nl] ++ str "/// " ++ [nl] ++ MACRO_EXPORT in
  has_block content /\
  new_content content = Ok once /\
  new_content once = Ok twice /\
  once <> twice.
Proof.
  cbv zeta. split; [exists [], (dq :: str "E0001: x" ++ [dq]), []; reflexivity|].
  split; [vm_compute; reflexivity|].
  split; [vm_compute; reflexivity|].
  vm_compute. discriminate.
Qed.

(** A message that holds the attribute makes every further application add
    one attribute line. *)
Lemma attribute_in_message_grows :
  let content :=
    dq :: str "E0001: see #[macro_export]" ++ [dq; nl]
       ++ ERROR_INITIAL_DOC ++ [nl] ++ MACRO_EXPORT in
  let once :=
    dq :: str "E0001: see #[macro_export]" ++ [dq; nl]
       ++ ERROR_INITIAL_DOC ++ [nl]
       ++ str "/// E0001: see #[macro_export]" ++ [nl] ++ MACRO_EXPORT in
  new_content content = Ok once /\
  new_content once = Ok (once ++ [nl] ++ MACRO_EXPORT).
Proof. cbv zeta. split; vm_compute; reflexivity. Qed.

(** C3 (amended): when no message holds a backslash or the attribute, and
    no double quote stands between the header and the attribute of a block,
    the transformation succeeds and applying it to its result returns the
    result. *)
Theorem twice_is_once (content : text) :
  Forall (fun m => ~ In bslash m /\ ~ occurs MACRO_EXPORT m)
         (findall content) ->
  Forall (fun b => ~ In dq (snd b)) (blocks content) ->
  exists new, new_content content = Ok new /\ new_content new = Ok new.
Proof.
  intros Hm Hb.
  assert (Hp : Forall (fun m => ~ In bslash m) (findall content)).
  { eapply Forall_impl; [|exact Hm]. intros m H. apply H. }
  assert (Ha : Forall (fun m => ~ occurs MACRO_EXPORT m) (findall content)).
  { eapply Forall_impl; [|exact Hm]. intros m H. apply H. }
  exists (sub_LISTING [Chars (block (findall content))] content).
  split; [exact (@new_content_plain content Hp)|].
  assert (Hf : findall (sub_LISTING [Chars (block (findall content))] content)
               = findall content).
  { apply findall_sub_LISTING;
      [apply findall_error_messages|exact Ha|exact Hb]. }
  rewrite new_content_plain; rewrite Hf; [|exact Hp].
  f_equal. unfold block. apply sub_LISTING_twice.
  apply listing_ends_at_attribute. exact Ha.
Qed.

Lemma twice_is_once_witness :
  exists new, new_content example_input = Ok new /\ new_content new = Ok new.
Proof.
  apply (@twice_is_once example_input).
  - replace (findall example_input)
      with [str "E0001: bad input"; str "E0002: missing field"]
      by (vm_compute; reflexivity).
    repeat constructor;
      try (intros H; vm_compute in H; intuition discriminate);
      (apply lazy_dotall_none; vm_compute; reflexivity).
  - replace (blocks example_input)
      with [(dq :: str "E0001: bad input" ++ [dq; nl]
                ++ dq :: str "E0002: missing field" ++ [dq; nl], [nl])]
      by (vm_compute; reflexivity).
    repeat constructor. intros H. vm_compute in H. intuition discriminate.
Defined.

(** * Further properties of the script *)

(** ** Failure *)

Lemma tokenize_raises s e : tokenize s = Raise e -> e = TemplateError.
Proof.
  induction s as [s IH] using text_suffix_ind.
  destruct s as [|c r]; cbn [tokenize]; [discriminate|].
  destruct (eqc c bslash).
  - destruct r as [|d r']; [intros [= <-]; reflexivity|].
    destruct (tokenize r') eqn:E; cbn [bind]; [discriminate|].
    intros [= <-]. apply (IH r'); [simpl; lia|exact E].
  - destruct (tokenize r) eqn:E; cbn [bind]; [discriminate|].
    intros [= <-]. apply (IH r); [simpl; lia|exact E].
Qed.




(** X12: when the template compiles and the file can be opened for
    writing but [print] fails, the file has already been truncated and
    nothing has been written to it: the run ends with the exception of
    [print] and the file left empty. *)
Theorem print_failure_truncates
    (e : env) (content out new : text) (f : failure) :
  new_content content = Ok new ->
  writable e = true ->
  print_failure e new = Some f ->
  main e (World (Holds content) out)
  = (Raise (raised f), World (Holds []) (out ++ written f)).
Proof.
  intros Hn Hw Hp.
  unfold main, io_bind, read_errors_rs, raising, open_write, print.
  cbn [errors_rs stdout].
  change (sub (replacement (findall content)) content)
    with (new_content content).
  rewrite Hn, Hw. cbn [errors_rs stdout]. rewrite Hp. reflexivity.
Qed.

Lemma print_failure_truncates_witness :
  main mute (World (Holds example_input) (str "earlier"))
  = (Raise (raised Unencodable),
     World (Holds []) (str "earlier" ++ written Unencodable)).
Proof.
  apply (@print_failure_truncates mute example_input (str "earlier")
           example_output Unencodable).
  - vm_compute. reflexivity.
  - reflexivity.
  - reflexivity.
Defined.

(** ** Extraction *)

(** X2: no message spans a line feed, so the messages of a text are those
    of the part before a line feed followed by those of the part behind
    it. *)
Theorem findall_by_lines (u v : text) :
  findall (u ++ nl :: v) = findall u ++ findall v.
Proof.
  rewrite findall_app_dead.
  - f_equal. apply (@findall_skip_no_quote [nl] v).
    intros [H|[]]. vm_compute in H. discriminate.
  - apply (@dead_before_nl [] v). intros [].
Qed.

(** X3: a literal of the shape of the pattern that stands behind a text
    without double quote is extracted, and the scan resumes behind its
    closing quote. *)
Theorem literal_behind_clean_gap (gap m rest : text) :
  ~ In dq gap -> error_message m ->
  findall (gap ++ dq :: m ++ dq :: rest) = m :: findall rest.
Proof.
  intros Hg Hm. rewrite (@findall_skip_no_quote gap _ Hg).
  apply findall_match. apply match_ERROR_PATTERN_spec. auto.
Qed.

Lemma literal_behind_clean_gap_witness :
  findall (str "    Timeout => " ++ dq :: str "E0042: timed out" ++ dq :: str ",")
  = str "E0042: timed out" :: findall (str ",").
Proof.
  apply (@literal_behind_clean_gap (str "    Timeout => ")
           (str "E0042: timed out") (str ",")).
  - intros H. vm_compute in H. intuition discriminate.
  - exists (ch "0"), (ch "0"), (ch "4"), (ch "2"), (ch " "),
      (str "timed out").
    repeat split;
      try (intros H; vm_compute in H; intuition discriminate).
Defined.

(** X4: the extraction returns exactly the messages of the leftmost
    literals that do not overlap, from left to right: a literal that begins
    where the reading stands is never passed over, each one gives one
    entry, equal messages included, and nothing else is listed. *)
Theorem findall_is_leftmost_scan (s : text) (ms : list text) :
  scan_of s ms <-> ms = findall s.
Proof.
  split.
  - apply scan_of_unique.
  - intros ->. apply scan_of_findall.
Qed.

(** ** The block that is replaced *)



(** ** Texts whose messages hold no backslash *)

(** X6: when no message holds a backslash, the new text is the text that
    was read with every block replaced by the header, a line feed, the
    messages of the whole text in the order of the scan, each behind the
    comment prefix and joined by line feeds, a line feed, and the
    attribute; the text outside the blocks stays as it was. *)
Theorem plain_blocks_rewritten (content : text) :
  Forall (fun m => ~ In bslash m) (findall content) ->
  new_content content =
  Ok (flat_map
        (fun b => fst b ++ ERROR_INITIAL_DOC ++ [nl] ++ str "/// "
                    ++ join (nl :: str "/// ") (findall content) ++ [nl]
                    ++ MACRO_EXPORT)
        (blocks content)
      ++ remainder content).
Proof.
  intros Hp. rewrite (@new_content_plain content Hp), sub_LISTING_blocks.
  do 2 f_equal. apply flat_map_ext. intros [pre mid].
  unfold rewritten_block, block, listing. cbn [fst snd].
  rewrite expand_Chars. norm_app. reflexivity.
Qed.

Lemma plain_blocks_rewritten_witness :
  new_content example_input =
  Ok (flat_map
        (fun b => fst b ++ ERROR_INITIAL_DOC ++ [nl] ++ str "/// "
                    ++ join (nl :: str "/// ") (findall example_input)
                    ++ [nl] ++ MACRO_EXPORT)
        (blocks example_input)
      ++ remainder example_input).
Proof.
  apply (@plain_blocks_rewritten example_input).
  replace (findall example_input)
    with [str "E0001: bad input"; str "E0002: missing field"]
    by (vm_compute; reflexivity).
  repeat constructor; intros H; vm_compute in H; intuition discriminate.
Defined.



(** ** The new text *)

Lemma blocks_sub_LISTING (R s : text) :
  lazy_dotall MACRO_EXPORT (R ++ MACRO_EXPORT) = Some (R, []) ->
  blocks (sub_LISTING [Chars (ERROR_INITIAL_DOC ++ R ++ MACRO_EXPORT)] s)
  = map (fun b => (fst b, R)) (blocks s) /\
  remainder (sub_LISTING [Chars (ERROR_INITIAL_DOC ++ R ++ MACRO_EXPORT)] s)
  = remainder s.
Proof.
  intros HR. set (t := [Chars (ERROR_INITIAL_DOC ++ R ++ MACRO_EXPORT)]).
  induction s as [s IH] using text_suffix_ind.
  rewrite (sub_LISTING_eq t s), (blocks_eq s), (remainder_eq s).
  destruct (search_LISTING s) as [[[pre mid] post]|] eqn:E.
  - unfold t at 1 3. rewrite expand_Chars. norm_app.
    rewrite blocks_eq, remainder_eq.
    rewrite (@search_LISTING_first s pre mid post R (sub_LISTING t post) E HR).
    destruct (IH post (search_LISTING_length _ E)) as [-> ->].
    split; reflexivity.
  - rewrite blocks_eq, remainder_eq, E. split; reflexivity.
Qed.

(** X8: when no message holds a backslash or the attribute, the new text
    has the blocks of the text that was read, at the same places, each
    with the same listing between header and attribute, and the same text
    behind the last block. *)
Theorem blocks_of_new_content (content new : text) :
  Forall (fun m => ~ In bslash m /\ ~ occurs MACRO_EXPORT m)
         (findall content) ->
  new_content content = Ok new ->
  blocks new = map (fun b => (fst b, listing (findall content)))
                 (blocks content) /\
  remainder new = remainder content.
Proof.
  intros Hm.
  assert (Hp : Forall (fun m => ~ In bslash m) (findall content)).
  { eapply Forall_impl; [|exact Hm]. intros m H. apply H. }
  assert (Ha : Forall (fun m => ~ occurs MACRO_EXPORT m) (findall content)).
  { eapply Forall_impl; [|exact Hm]. intros m H. apply H. }
  rewrite (@new_content_plain content Hp). intros [= <-].
  unfold block. apply blocks_sub_LISTING.
  apply listing_ends_at_attribute. exact Ha.
Qed.

Lemma blocks_of_new_content_witness :
  blocks two_blocks_new
  = map (fun b => (fst b, listing (findall two_blocks))) (blocks two_blocks)
  /\ remainder two_blocks_new = remainder two_blocks.
Proof.
  apply (@blocks_of_new_content two_blocks two_blocks_new).
  - replace (findall two_blocks) with (@nil text)
      by (vm_compute; reflexivity).
    constructor.
  - vm_compute. reflexivity.
Defined.

(** X9: when no message holds a backslash or the attribute and no block
    a double quote, the scan of the new text yields the messages of the
    text that was read: the listing adds no literal and the text that is
    replaced held none. *)
Theorem messages_survive (content new : text) :
  Forall (fun m => ~ In bslash m /\ ~ occurs MACRO_EXPORT m)
         (findall content) ->
  Forall (fun b => ~ In dq (snd b)) (blocks content) ->
  new_content content = Ok new ->
  findall new = findall content.
Proof.
  intros Hm Hb.
  assert (Hp : Forall (fun m => ~ In bslash m) (findall content)).
  { eapply Forall_impl; [|exact Hm]. intros m H. apply H. }
  assert (Ha : Forall (fun m => ~ occurs MACRO_EXPORT m) (findall content)).
  { eapply Forall_impl; [|exact Hm]. intros m H. apply H. }
  rewrite (@new_content_plain content Hp). intros [= <-].
  apply findall_sub_LISTING;
    [apply findall_error_messages|exact Ha|exact Hb].
Qed.

Lemma messages_survive_witness :
  findall example_output = findall example_input.
Proof.
  apply (@messages_survive example_input example_output).
  - replace (findall example_input)
      with [str "E0001: bad input"; str "E0002: missing field"]
      by (vm_compute; reflexivity).
    repeat constructor;
      try (intros H; vm_compute in H; intuition discriminate);
      (apply lazy_dotall_none; vm_compute; reflexivity).
  - replace (blocks example_input)
      with [(dq :: str "E0001: bad input" ++ [dq; nl]
                ++ dq :: str "E0002: missing field" ++ [dq; nl], [nl])]
      by (vm_compute; reflexivity).
    repeat constructor. intros H. vm_compute in H. intuition discriminate.
  - vm_compute. reflexivity.
Defined.

(** ** Escapes in the messages *)

Lemma letter_not_digit c : ASCIILETTERS c = true -> DIGITS c = false.
Proof.
  unfold ASCIILETTERS, DIGITS, in_range.
  change (ch "a") with 97%N. change (ch "z") with 122%N.
  change (ch "A") with 65%N. change (ch "Z") with 90%N.
  change (ch "0") with 48%N. change (ch "9") with 57%N.
  intros H. apply Bool.orb_true_iff in H.
  apply Bool.andb_false_iff. right. apply N.leb_gt.
  destruct H as [H|H]; apply Bool.andb_true_iff in H; destruct H as [H _];
    apply N.leb_le in H; lia.
Qed.

Lemma parse_tokens_bad_escape c r :
  ASCIILETTERS c = true -> ESCAPES c = None -> c <> ch "g" ->
  parse_tokens (Esc c :: r) = Raise TemplateError.
Proof.
  intros Hl He Hg.
  assert (Hd := letter_not_digit _ Hl).
  assert (G : eqc c (ch "g") = false).
  { destruct (eqc_spec c (ch "g")); [contradiction|reflexivity]. }
  assert (Z : eqc c (ch "0") = false).
  { destruct (eqc_spec c (ch "0")) as [->|]; [|reflexivity].
    vm_compute in Hd. discriminate. }
  simp parse_tokens. rewrite G. simp parse_tokens. rewrite Z.
  simp parse_tokens. rewrite Hd. simp parse_tokens. rewrite He.
  simp parse_tokens. rewrite Hl. reflexivity.
Qed.

Lemma join_cons sep m after :
  join sep (m :: after) = m ++ flat_map (fun x => sep ++ x) after.
Proof.
  revert m. induction after as [|y after IH]; intros m.
  - cbn [join flat_map]. rewrite app_nil_r. reflexivity.
  - change (join sep (m :: y :: after)) with (m ++ sep ++ join sep (y :: after)).
    rewrite IH. cbn [flat_map]. norm_app. reflexivity.
Qed.

Lemma join_split sep before m after :
  join sep (before ++ m :: after)
  = flat_map (fun x => x ++ sep) before ++ m
      ++ flat_map (fun x => sep ++ x) after.
Proof.
  induction before as [|x before IH].
  - apply join_cons.
  - cbn [app flat_map].
    destruct (before ++ m :: after) as [|y l] eqn:E.
    + destruct before; discriminate.
    + change (join sep (x :: y :: l)) with (x ++ sep ++ join sep (y :: l)).
      rewrite IH. norm_app. reflexivity.
Qed.

Lemma flat_map_no_bslash sep before :
  ~ In bslash sep -> Forall (fun m => ~ In bslash m) before ->
  ~ In bslash (flat_map (fun x => x ++ sep) before).
Proof.
  intros Hs HF. induction HF as [|m ms Hm _ IH]; cbn [flat_map];
    [intros []|].
  rewrite !in_app_iff. intros [[H|H]|H]; auto.
Qed.

(** X10: when the first backslash in the messages stands before an ASCII
    letter that is neither [g] nor one of the escapes [a b f n r t v], the
    replacement template does not compile and the transformation raises,
    whatever else the text holds. *)
Theorem first_bad_escape_raises
    (content : text) (before after : list text) (a b : text) (c : char) :
  findall content = before ++ (a ++ bslash :: c :: b) :: after ->
  Forall (fun m => ~ In bslash m) before ->
  ~ In bslash a ->
  ASCIILETTERS c = true -> ESCAPES c = None -> c <> ch "g" ->
  new_content content = Raise TemplateError.
Proof.
  intros Hf Hbefore Ha Hl He Hg.
  unfold new_content, sub, parse_template, replacement. rewrite Hf.
  rewrite join_split.
  set (P := flat_map (fun x => x ++ nl :: str "/// ") before).
  set (Q := flat_map (fun x => (nl :: str "/// ") ++ x) after).
  assert (HP : ~ In bslash (P ++ a)).
  { rewrite in_app_iff. intros [H|H]; [|exact (Ha H)].
    revert H. apply flat_map_no_bslash; [|exact Hbefore].
    intros H. vm_compute in H. intuition discriminate. }
  replace (str "\g<1>\n/// " ++ (P ++ (a ++ bslash :: c :: b) ++ Q)
             ++ str "\n\g<2>")
    with (str "\g<1>\n/// "
            ++ (P ++ a) ++ bslash :: c :: (b ++ Q ++ str "\n\g<2>"))
    by (norm_app; reflexivity).
  rewrite (@tokenize_app (str "\g<1>\n/// ")
             [Esc (ch "g"); Chr (ch "<"); Chr (ch "1"); Chr (ch ">");
              Esc (ch "n"); Chr (ch "/"); Chr (ch "/"); Chr (ch "/");
              Chr (ch " ")]); [|reflexivity].
  rewrite (@tokenize_app (P ++ a) (map Chr (P ++ a)));
    [|apply tokenize_plain; exact HP].
  cbn [tokenize]. rewrite eqc_refl.
  destruct (tokenize (b ++ Q ++ str "\n\g<2>")) as [ts|e] eqn:T;
    cbn [bind app].
  - rewrite parse_tokens_g. cbn [getuntil].
    change (eqc (ch "1") (ch ">")) with false.
    change (eqc (ch ">") (ch ">")) with true.
    cbv beta iota.
    change (group_of_name [ch "1"]) with (Ok 1%N). cbn [bind].
    unfold addgroup at 1. change (N.leb 1 pattern_groups) with true.
    cbv beta iota.
    rewrite parse_tokens_newline. unfold lappend at 1.
    change (Chr (ch "/") :: Chr (ch "/") :: Chr (ch "/") :: Chr (ch " ")
              :: map Chr (P ++ a) ++ Esc c :: ts)
      with (map Chr (str "/// ") ++ map Chr (P ++ a) ++ Esc c :: ts).
    rewrite !parse_tokens_plain.
    rewrite (parse_tokens_bad_escape ts Hl He Hg). reflexivity.
  - rewrite (@tokenize_raises _ _ T). reflexivity.
Qed.

Lemma first_bad_escape_raises_witness :
  new_content
    (str "Io => " ++ dq :: str "E0007: cannot read C:\data" ++ [dq; nl]
       ++ ERROR_INITIAL_DOC ++ [nl] ++ MACRO_EXPORT)
  = Raise TemplateError.
Proof.
  apply (@first_bad_escape_raises _ [] [] (str "E0007: cannot read C:")
           (str "ata") (ch "d")).
  - vm_compute. reflexivity.
  - constructor.
  - intros H. vm_compute in H. intuition discriminate.
  - reflexivity.
  - reflexivity.
  - intros H. vm_compute in H. discriminate.
Defined.

(** ** The markers of the new blocks *)

Lemma getuntil_chars ts name rest :
  getuntil ts = Some (name, rest) -> ~ In bslash name ->
  exists cs, ts = map Chr cs ++ rest.
Proof.
  revert name rest; induction ts as [|t r IH]; intros name rest;
    cbn [getuntil]; [discriminate|].
  destruct t as [c|c].
  - destruct (eqc c _).
    + intros [= <- <-] _. exists [c]. reflexivity.
    + destruct (getuntil r) as [[n t]|]; [|discriminate].
      intros [= <- <-] Hn.
      destruct (IH n t eq_refl) as [cs ->].
      * intros H. apply Hn. right. exact H.
      * exists (c :: cs). reflexivity.
  - destruct (getuntil r) as [[n t]|]; [|discriminate].
    intros [= <- <-] Hn. exfalso. apply Hn. left. reflexivity.
Qed.

Lemma digits_no_bslash name : forallb DIGITS name = true -> ~ In bslash name.
Proof.
  intros H Hin. rewrite forallb_forall in H. apply H in Hin.
  vm_compute in Hin. discriminate.
Qed.

(** One turn of the loop of [parse_template]: the first token and some
    single characters behind it become one piece. *)
Lemma parse_tokens_step ts t :
  parse_tokens ts = Ok t -> ts <> [] ->
  exists p first cs rest t',
    ts = first :: map Chr cs ++ rest /\
    parse_tokens rest = Ok t' /\ t = p :: t'.
Proof.
  revert t. funelim (parse_tokens ts); intros t0.
  all: try discriminate.
  all: try (intros _ Hne; exfalso; apply Hne; reflexivity).
  all: unfold lappend, addgroup, group_of_name, bind.
  all: repeat match goal with
         | |- context [match ?x with _ => _ end] => destruct x eqn:?
         end.
  all: try discriminate.
  all: intros [= <-] _.
  all: try (eexists _, _, [], _, _;
             split; [reflexivity|split; [eassumption|reflexivity]]).
  all: try (eexists _, _, [_], _, _;
             split; [reflexivity|split; [eassumption|reflexivity]]).
  all: try (eexists _, _, [_; _], _, _;
             split; [reflexivity|split; [eassumption|reflexivity]]).
  assert (Hn : ~ In bslash name).
  { destruct name as [|x name]; [discriminate|].
    destruct (forallb DIGITS (x :: name)) eqn:D; [|discriminate].
    exact (digits_no_bslash _ D). }
  destruct (getuntil_chars _ H Hn) as [cs ->].
  exists (Group a), (Esc c), (o :: cs), r2, a0.
  split; [reflexivity|split; [assumption|reflexivity]].
Qed.

(** The tokens of a replacement end with those of [\g<2>]. *)
Lemma tokenize_closing_group (X : text) ts :
  tokenize (X ++ str "\n\g<2>") = Ok ts ->
  exists ts0, ts = ts0 ++ closing_group.
Proof.
  revert ts. induction X as [X IH] using text_suffix_ind. intros ts.
  destruct X as [|c r].
  - intros H. vm_compute in H. injection H as <-.
    exists [Esc (ch "n")]. reflexivity.
  - cbn [app tokenize]. destruct (eqc c bslash).
    + destruct r as [|d r'].
      * intros H. vm_compute in H. injection H as <-.
        exists [Esc bslash; Chr (ch "n")]. reflexivity.
      * cbn [app].
        destruct (tokenize (r' ++ str "\n\g<2>")) as [ts'|] eqn:E;
          cbn [bind]; [|discriminate].
        intros [= <-].
        destruct (IH r') with (ts := ts') as [ts0 ->];
          [simpl; lia|exact E|].
        exists (Esc d :: ts0). reflexivity.
    + destruct (tokenize (r ++ str "\n\g<2>")) as [ts'|] eqn:E;
        cbn [bind]; [|discriminate].
      intros [= <-].
      destruct (IH r) with (ts := ts') as [ts0 ->];
        [simpl; lia|exact E|].
      exists (Chr c :: ts0). reflexivity.
Qed.

(** A template whose tokens end with those of [\g<2>] ends with group 2. *)
Lemma parse_tokens_closing_group ts0 : forall t,
  parse_tokens (ts0 ++ closing_group) = Ok t ->
  exists t', t = t' ++ [Group 2].
Proof.
  remember (length ts0) as n eqn:Hn. revert ts0 Hn.
  induction n as [n IH] using lt_wf_ind. intros ts0 -> t Hp.
  destruct ts0 as [|f ts0].
  - vm_compute in Hp. injection Hp as <-. exists []. reflexivity.
  - destruct (parse_tokens_step Hp) as (p & first & cs & rest & t' & E & Hr & ->);
      [discriminate|].
    cbn [app] in E. apply cons_eq in E. destruct E as [_ E].
    apply app_eq_app in E. destruct E as [l [[E1 E2]|[E1 E2]]].
    + subst rest.
      destruct (IH (length l)) with (ts0 := l) (t := t') as [t'' ->];
        [|reflexivity|exact Hr|].
      * rewrite E1. simpl. rewrite length_app. lia.
      * exists (p :: t''). reflexivity.
    + destruct l as [|x l].
      * cbn [app] in E2. subst rest.
        destruct (IH 0) with (ts0 := @nil token) (t := t') as [t'' ->];
          [simpl; lia|reflexivity|exact Hr|].
        exists (p :: t''). reflexivity.
      * exfalso. unfold closing_group in E2. cbn [app] in E2.
        apply cons_eq in E2. destruct E2 as [<- _].
        assert (Hin : In (Esc (ch "g")) (map Chr cs)).
        { rewrite E1. apply in_or_app. right. left. reflexivity. }
        apply in_map_iff in Hin. destruct Hin as (y & Hy & _).
        discriminate.
Qed.

(** Whatever the messages hold, a template that compiles begins with group
    1 and ends with group 2. *)
Lemma template_shape errors t :
  parse_template (replacement errors) = Ok t ->
  exists t', t = Group 1 :: t' ++ [Group 2].
Proof.
  unfold parse_template, replacement.
  rewrite (@tokenize_app (str "\g<1>\n/// ")
             [Esc (ch "g"); Chr (ch "<"); Chr (ch "1"); Chr (ch ">");
              Esc (ch "n"); Chr (ch "/"); Chr (ch "/"); Chr (ch "/");
              Chr (ch " ")]); [|reflexivity].
  destruct (tokenize (join (nl :: str "/// ") errors ++ str "\n\g<2>"))
    as [ts|e] eqn:T; cbn [bind]; [|discriminate].
  destruct (tokenize_closing_group _ T) as [ts0 ->].
  cbn [app]. rewrite parse_tokens_g. cbn [getuntil].
  change (eqc (ch "1") (ch ">")) with false.
  change (eqc (ch ">") (ch ">")) with true.
  cbv beta iota.
  change (group_of_name [ch "1"]) with (Ok 1%N). cbn [bind].
  unfold addgroup. change (N.leb 1 pattern_groups) with true.
  cbv beta iota.
  change (Esc (ch "n") :: Chr (ch "/") :: Chr (ch "/") :: Chr (ch "/")
            :: Chr (ch " ") :: ts0 ++ closing_group)
    with ((Esc (ch "n") :: Chr (ch "/") :: Chr (ch "/") :: Chr (ch "/")
             :: Chr (ch " ") :: ts0) ++ closing_group).
  destruct (parse_tokens _) as [t1|e] eqn:P; cbn [bind]; [|discriminate].
  intros [= <-].
  destruct (parse_tokens_closing_group _ P) as [t' ->].
  exists t'. reflexivity.
Qed.

(** X11: whatever the messages hold, when the transformation returns a
    text, every block of it begins with the header and ends with the
    attribute, at the place of a block of the text that was read; so the
    new text holds a block exactly when the text that was read does. *)
Theorem markers_survive (content new : text) :
  new_content content = Ok new ->
  (exists inner : text * text -> text,
     new = flat_map
             (fun b => fst b ++ ERROR_INITIAL_DOC ++ inner b ++ MACRO_EXPORT)
             (blocks content)
           ++ remainder content) /\
  (has_block content <-> has_block new).
Proof.
  unfold new_content, sub.
  destruct (parse_template (replacement (findall content))) as [t|e] eqn:P;
    cbn [bind]; [|discriminate].
  intros [= <-]. destruct (template_shape _ P) as [t' ->].
  assert (Hx : forall whole,
             expand (Group 1 :: t' ++ [Group 2]) whole
             = ERROR_INITIAL_DOC ++ expand t' whole ++ MACRO_EXPORT).
  { intros whole.
    change (Group 1 :: t' ++ [Group 2]) with ([Group 1] ++ t' ++ [Group 2]).
    rewrite !expand_app. unfold expand at 1 3.
    cbn [flat_map expand_piece group_text]. rewrite !app_nil_r.
    reflexivity. }
  split.
  - exists (fun b => expand t' (ERROR_INITIAL_DOC ++ snd b ++ MACRO_EXPORT)).
    rewrite sub_LISTING_blocks. f_equal. apply flat_map_ext.
    intros [pre mid]. unfold rewritten_block. cbn [fst snd].
    rewrite Hx. reflexivity.
  - rewrite sub_LISTING_eq.
    destruct (search_LISTING content) as [[[pre mid] post]|] eqn:E.
    + split; intros _.
      * rewrite Hx.
        exists pre, (expand t' (ERROR_INITIAL_DOC ++ mid ++ MACRO_EXPORT)),
          (sub_LISTING (Group 1 :: t' ++ [Group 2]) post).
        norm_app. reflexivity.
      * exists pre, mid, post. exact (search_LISTING_sound _ E).
    + reflexivity.
Qed.

Lemma markers_survive_witness :
  (exists inner : text * text -> text,
     dq :: str "E0001: say \" ++ [dq] ++ str "hi\" ++ [dq; dq; nl]
        ++ ERROR_INITIAL_DOC ++ [nl]
        ++ str "/// E0001: say \n#[macro_export]"
     = flat_map
         (fun b => fst b ++ ERROR_INITIAL_DOC ++ inner b ++ MACRO_EXPORT)
         (blocks (dq :: str "E0001: say \" ++ [dq] ++ str "hi\"
                     ++ [dq; dq; nl]
                     ++ ERROR_INITIAL_DOC ++ [nl] ++ MACRO_EXPORT))
       ++ remainder (dq :: str "E0001: say \" ++ [dq] ++ str "hi\"
                        ++ [dq; dq; nl]
                        ++ ERROR_INITIAL_DOC ++ [nl] ++ MACRO_EXPORT)) /\
  (has_block (dq :: str "E0001: say \" ++ [dq] ++ str "hi\" ++ [dq; dq; nl]
                 ++ ERROR_INITIAL_DOC ++ [nl] ++ MACRO_EXPORT)
   <-> has_block (dq :: str "E0001: say \" ++ [dq] ++ str "hi\"
                     ++ [dq; dq; nl]
                     ++ ERROR_INITIAL_DOC ++ [nl]
                     ++ str "/// E0001: say \n#[macro_export]")).
Proof.
  apply (@markers_survive
           (dq :: str "E0001: say \" ++ [dq] ++ str "hi\" ++ [dq; dq; nl]
               ++ ERROR_INITIAL_DOC ++ [nl] ++ MACRO_EXPORT)).
  vm_compute. reflexivity.
Defined.
